(** * journalcloud: a shallow embedding of src/main.rs

    The agent drains the systemd journal in batches, ships each batch to
    CloudWatch Logs with [put_log_events] and then writes the batch's journal
    cursor to a file.  The external collaborators (journal, CloudWatch client,
    file system, clock) are the methods of the class [Env]; the program runs in
    a state monad that threads the world, the runtime's [aws_cursor] and a
    trace of every external call together with the world right after it. *)

From Stdlib Require Import Strings.String Strings.Ascii Strings.Byte List ZArith NArith Lia Bool.
Import ListNotations.

(** ** Rust-level data *)

Inductive Result (A E : Type) : Type :=
| Ok (a : A)
| Err (e : E).
Arguments Ok {A E} a.
Arguments Err {A E} e.

Inductive IoErrorKind : Type :=
| NotFound
| PermissionDenied
| InvalidData
| OtherError.

Definition IoResult (A : Type) : Type := Result A IoErrorKind.

(** [systemd::journal::JournalRecord] is a [BTreeMap<String, String>]:
    its entries in ascending key order. *)
Definition JournalRecord : Type := list (string * string).

Inductive JournalSeek : Type :=
| Head
| Current
| Tail
| Cursor (cursor : string).

Record Config : Type := {
  aws_region : string;
  cursor_file : string;
  batch_size : N;            (* u32 *)
  sleep_time : Z;            (* milliseconds *)
  log_group_name : string;
  log_stream_name : string
}.

Record LogBatch : Type := {
  cursor : string;
  logs : list JournalRecord
}.

(** rusoto_logs request and response types (the fields the program sets). *)
Record InputLogEvent : Type := {
  message : string;
  timestamp : Z
}.

Record PutLogEventsRequest : Type := {
  ple_log_group_name : string;
  ple_log_stream_name : string;
  ple_sequence_token : option string;
  ple_log_events : list InputLogEvent
}.

Record PutLogEventsResponse : Type := {
  next_sequence_token : option string
}.

Record LogStream : Type := {
  ls_log_stream_name : string;
  ls_upload_sequence_token : option string
}.

Record DescribeLogStreamsRequest : Type := {
  dls_log_group_name : string;
  dls_log_stream_name_prefix : option string;
  dls_descending : option bool;
  dls_limit : option Z;
  dls_next_token : option string;
  dls_order_by : option string
}.

Record DescribeLogStreamsResponse : Type := {
  log_streams : option (list LogStream)
}.

Record CreateLogStreamRequest : Type := {
  cls_log_group_name : string;
  cls_log_stream_name : string
}.

(** ** serde_json::to_string on a [BTreeMap<String, String>] *)

Definition char_of (n : nat) : string := String (ascii_of_nat n) EmptyString.

Definition hex_digit (n : nat) : string :=
  char_of (if n <? 10 then 48 + n else 87 + n).

(** serde_json's escape table: quote, backslash, the five short escapes,
    the other control characters as \u00XX with lowercase hex digits. *)
Definition json_escape_byte (c : ascii) : string :=
  let n := nat_of_ascii c in
  if n =? 34 then String.append (char_of 92) (char_of 34)
  else if n =? 92 then String.append (char_of 92) (char_of 92)
  else if n =? 8 then String.append (char_of 92) "b"%string
  else if n =? 12 then String.append (char_of 92) "f"%string
  else if n =? 10 then String.append (char_of 92) "n"%string
  else if n =? 13 then String.append (char_of 92) "r"%string
  else if n =? 9 then String.append (char_of 92) "t"%string
  else if n <? 32 then
    String.append (char_of 92)
      (String.append "u00"%string (String.append (hex_digit (n / 16)) (hex_digit (n mod 16))))
  else String c EmptyString.

Fixpoint json_escape (s : string) : string :=
  match s with
  | EmptyString => EmptyString
  | String c s' => String.append (json_escape_byte c) (json_escape s')
  end.

Definition json_string (s : string) : string :=
  (char_of 34 ++ json_escape s ++ char_of 34)%string.

Definition json_of_record (r : JournalRecord) : string :=
  ("{" ++ String.concat ","
           (map (fun kv => json_string (fst kv) ++ ":" ++ json_string (snd kv))%string r)
       ++ "}")%string.


(** [json::to_string] cannot fail on a map of strings. *)
Definition json_to_string (r : JournalRecord) : Result string string := Ok (json_of_record r).

(** Not part of the program: a decoder for the text [json_of_record]
    produces, used only to show that the encoding loses nothing.  It reads
    the body of a JSON string up to its closing quote, undoing each escape
    of [json_escape_byte]. *)
Definition hex_value (c : ascii) : option nat :=
  let n := nat_of_ascii c in
  if (48 <=? n) && (n <=? 57) then Some (n - 48)
  else if (97 <=? n) && (n <=? 102) then Some (n - 87)
  else None.

Definition cons_decoded (c : ascii) (r : option (string * list ascii)) :
  option (string * list ascii) :=
  match r with
  | Some (s, rest) => Some (String c s, rest)
  | None => None
  end.

Fixpoint json_unescape (l : list ascii) : option (string * list ascii) :=
  match l with
  | [] => None
  | c :: l1 =>
      if Ascii.eqb c (ascii_of_nat 34) then Some (EmptyString, l1)
      else if Ascii.eqb c (ascii_of_nat 92) then
        match l1 with
        | [] => None
        | e :: l2 =>
            if Ascii.eqb e (ascii_of_nat 34) then cons_decoded (ascii_of_nat 34) (json_unescape l2)
            else if Ascii.eqb e (ascii_of_nat 92) then cons_decoded (ascii_of_nat 92) (json_unescape l2)
            else if Ascii.eqb e "b"%char then cons_decoded (ascii_of_nat 8) (json_unescape l2)
            else if Ascii.eqb e "f"%char then cons_decoded (ascii_of_nat 12) (json_unescape l2)
            else if Ascii.eqb e "n"%char then cons_decoded (ascii_of_nat 10) (json_unescape l2)
            else if Ascii.eqb e "r"%char then cons_decoded (ascii_of_nat 13) (json_unescape l2)
            else if Ascii.eqb e "t"%char then cons_decoded (ascii_of_nat 9) (json_unescape l2)
            else if Ascii.eqb e "u"%char then
              match l2 with
              | z1 :: z2 :: h1 :: h2 :: l6 =>
                  if Ascii.eqb z1 "0"%char && Ascii.eqb z2 "0"%char then
                    match hex_value h1, hex_value h2 with
                    | Some a, Some b => cons_decoded (ascii_of_nat (16 * a + b)) (json_unescape l6)
                    | _, _ => None
                    end
                  else None
              | _ => None
              end
            else None
        end
      else cons_decoded c (json_unescape l1)
  end.

(** The entries of a record after the opening brace, up to and including the
    closing brace, with [fuel] bounding the number of entries. *)
Fixpoint json_decode_entries (fuel : nat) (l : list ascii)
  : option (list (string * string) * list ascii) :=
  match fuel with
  | O => None
  | S f =>
      match l with
      | q :: l1 =>
          if Ascii.eqb q (ascii_of_nat 34) then
            match json_unescape l1 with
            | Some (k, colon :: q2 :: l2) =>
                if Ascii.eqb colon ":"%char && Ascii.eqb q2 (ascii_of_nat 34) then
                  match json_unescape l2 with
                  | Some (v, sep :: l3) =>
                      if Ascii.eqb sep ","%char then
                        match json_decode_entries f l3 with
                        | Some (es, rest) => Some ((k, v) :: es, rest)
                        | None => None
                        end
                      else if Ascii.eqb sep "}"%char then Some ([(k, v)], l3)
                      else None
                  | _ => None
                  end
                else None
            | _ => None
            end
          else None
      | [] => None
      end
  end.

Definition json_decode_record (s : string) : option JournalRecord :=
  match list_ascii_of_string s with
  | o :: l1 =>
      if Ascii.eqb o "{"%char then
        if list_eq_dec ascii_dec l1 ["}"%char] then Some []
        else
          match json_decode_entries (length l1) l1 with
          | Some (es, []) => Some es
          | _ => None
          end
      else None
  | [] => None
  end.

(** One [key:value] entry of [json_of_record], and the characters that are
    not control characters. *)
Definition json_entry (kv : string * string) : string :=
  (json_string (fst kv) ++ ":" ++ json_string (snd kv))%string.

Definition printable_char (x : ascii) : Prop := 32 <= nat_of_ascii x.

(** ** UTF-8 validation done by [Read::read_to_string] (std's [from_utf8]) *)

Definition byte_in (lo hi : nat) (b : byte) : bool :=
  (lo <=? Byte.to_nat b) && (Byte.to_nat b <=? hi).

Definition is_cont (b : byte) : bool := byte_in 128 191 b.

Fixpoint valid_utf8 (bs : list byte) : bool :=
  match bs with
  | [] => true
  | b0 :: rest =>
      if Byte.to_nat b0 <? 128 then valid_utf8 rest
      else if byte_in 194 223 b0 then
        match rest with
        | b1 :: r => is_cont b1 && valid_utf8 r
        | _ => false
        end
      else if byte_in 224 239 b0 then
        match rest with
        | b1 :: b2 :: r =>
            (if Byte.to_nat b0 =? 224 then byte_in 160 191 b1
             else if Byte.to_nat b0 =? 237 then byte_in 128 159 b1
             else is_cont b1) && is_cont b2 && valid_utf8 r
        | _ => false
        end
      else if byte_in 240 244 b0 then
        match rest with
        | b1 :: b2 :: b3 :: r =>
            (if Byte.to_nat b0 =? 240 then byte_in 144 191 b1
             else if Byte.to_nat b0 =? 244 then byte_in 128 143 b1
             else is_cont b1) && is_cont b2 && is_cont b3 && valid_utf8 r
        | _ => false
        end
      else false
  end.

(** ** i64 arithmetic (wrapping) *)

Definition wrap_i64 (z : Z) : Z :=
  (let m := z mod 2 ^ 64 in if 2 ^ 63 <=? m then m - 2 ^ 64 else m)%Z.

(** ** The external collaborators *)

(** The world answers every external call of the program.  Errors of all
    collaborators are reported as [IoErrorKind]: the program unwraps every one
    of them, so their payload never matters. *)
Class Env (W : Type) : Type := {
  journal_open : W -> IoResult unit * W;
  journal_seek : JournalSeek -> W -> IoResult unit * W;
  journal_next_record : W -> IoResult (option JournalRecord) * W;
  journal_cursor : W -> IoResult string * W;
  describe_log_streams :
    DescribeLogStreamsRequest -> W -> IoResult DescribeLogStreamsResponse * W;
  create_log_stream : CreateLogStreamRequest -> W -> IoResult unit * W;
  put_log_events : PutLogEventsRequest -> W -> IoResult PutLogEventsResponse * W;
  file_open : string -> W -> IoResult unit * W;
  file_read_to_end : string -> W -> IoResult (list byte) * W;
  file_create : string -> W -> IoResult unit * W;
  file_write_all : string -> list byte -> W -> IoResult unit * W;
  (** [SystemTime::now()], in nanoseconds relative to [UNIX_EPOCH] *)
  system_time_now : W -> Z * W;
  thread_sleep : Z -> W -> W
}.

(** One entry of the trace per external call, with its result. *)
Inductive Event : Type :=
| EvJournalOpen (r : IoResult unit)
| EvJournalSeek (target : JournalSeek) (r : IoResult unit)
| EvNextRecord (r : IoResult (option JournalRecord))
| EvCursor (r : IoResult string)
| EvDescribe (req : DescribeLogStreamsRequest) (r : IoResult DescribeLogStreamsResponse)
| EvCreateStream (req : CreateLogStreamRequest) (r : IoResult unit)
| EvPut (req : PutLogEventsRequest) (r : IoResult PutLogEventsResponse)
| EvFileOpen (path : string) (r : IoResult unit)
| EvFileRead (path : string) (r : IoResult (list byte))
| EvFileCreate (path : string) (r : IoResult unit)
| EvWriteAll (path : string) (bytes : list byte) (r : IoResult unit)
| EvNow (t : Z)
| EvSleep (ms : Z)
| EvPanic (msg : string).

Inductive Outcome (A : Type) : Type :=
| Done (a : A)
| Panicked (msg : string).
Arguments Done {A} a.
Arguments Panicked {A} msg.

Record St (W : Type) : Type := mkSt {
  st_world : W;
  st_aws_cursor : option string;             (* Runtime::aws_cursor *)
  st_trace : list (Event * W)                (* calls, with the world after each *)
}.
Arguments mkSt {W}.
Arguments st_world {W}.
Arguments st_aws_cursor {W}.
Arguments st_trace {W}.

Definition M (W A : Type) : Type := St W -> Outcome A * St W.

Definition ret {W A} (a : A) : M W A := fun s => (Done a, s).

Definition bind {W A B} (m : M W A) (f : A -> M W B) : M W B :=
  fun s => match m s with
           | (Done a, s') => f a s'
           | (Panicked e, s') => (Panicked e, s')
           end.

Notation "'let*' x ':=' c1 'in' c2" := (bind c1 (fun x => c2))
  (at level 61, x name, c1 at next level, right associativity).

Definition log_event {W} (e : Event) (s : St W) : St W :=
  mkSt s.(st_world) s.(st_aws_cursor) (s.(st_trace) ++ [(e, s.(st_world))]).

(** [panic!]: the process stops; the panic message is the last trace entry. *)
Definition panic {W A} (msg : string) : M W A :=
  fun s => (Panicked msg, log_event (EvPanic msg) s).

Definition call {W R} (op : W -> R * W) (ev : R -> Event) : M W R :=
  fun s => let (r, w') := op s.(st_world) in
           (Done r, mkSt w' s.(st_aws_cursor) (s.(st_trace) ++ [(ev r, w')])).

Definition unwrap {W A E} (r : Result A E) : M W A :=
  match r with
  | Ok a => ret a
  | Err _ => panic "called `Result::unwrap()` on an `Err` value"%string
  end.

Definition get_aws_cursor {W} : M W (option string) :=
  fun s => (Done s.(st_aws_cursor), s).

Definition set_aws_cursor {W} (t : option string) : M W unit :=
  fun s => (Done tt, mkSt s.(st_world) t s.(st_trace)).

(** ** The program *)

Section Program.
Context {W : Type} `{Env W}.

(** [current_ms]: [duration_since(UNIX_EPOCH).expect(..)], then
    [as_secs() as i64 * 1000 + subsec_nanos() as i64 / 1_000_000]. *)
Definition current_ms_of (t : Z) : Z :=
  wrap_i64 (wrap_i64 (wrap_i64 (t / 10 ^ 9) * 1000) + (t mod 10 ^ 9) / 1000000)%Z.

Definition current_ms : M W Z :=
  let* t := call system_time_now EvNow in
  if (t <? 0)%Z then panic "Time went backwards"%string
  else ret (current_ms_of t).

Definition sleep (config : Config) : M W unit :=
  call (fun w => (tt, thread_sleep config.(sleep_time) w)) (fun _ => EvSleep config.(sleep_time)).

(** The [for _i in 0..batch_size] loop of [read_batch]; [logs] is the vector
    being filled. *)
Fixpoint read_loop (n : nat) (logs : list JournalRecord) : M W (list JournalRecord) :=
  match n with
  | O => ret logs
  | S n' =>
      let* r := call journal_next_record EvNextRecord in
      let* next := unwrap r in
      match next with
      | None => ret logs
      | Some record => read_loop n' (logs ++ [record])
      end
  end.

Definition read_batch (config : Config) : M W (option LogBatch) :=
  let* logs := read_loop (N.to_nat config.(batch_size)) [] in
  if length logs =? 0 then ret None
  else
    let* r := call journal_cursor EvCursor in
    let* c := unwrap r in
    ret (Some {| logs := logs; cursor := c |}).

(** [batch.logs.iter().map(|log_line| InputLogEvent { .. }).collect()] *)
Fixpoint make_log_events (recs : list JournalRecord) : M W (list InputLogEvent) :=
  match recs with
  | [] => ret []
  | log_line :: rest =>
      let* msg := unwrap (json_to_string log_line) in
      let* ts := current_ms in
      let* evs := make_log_events rest in
      ret ({| message := msg; timestamp := ts |} :: evs)
  end.

Definition upload_logs (config : Config) (batch : LogBatch) : M W unit :=
  let* tok := get_aws_cursor in
  let* evs := make_log_events batch.(logs) in
  let req := {| ple_log_group_name := config.(log_group_name);
                ple_log_stream_name := config.(log_stream_name);
                ple_sequence_token := tok;
                ple_log_events := evs |} in
  let* r := call (put_log_events req) (EvPut req) in
  let* result := unwrap r in
  set_aws_cursor result.(next_sequence_token).

Definition persist_cursor (config : Config) (batch : LogBatch) : M W unit :=
  let path := config.(cursor_file) in
  let* r := call (file_create path) (EvFileCreate path) in
  let* _file := unwrap r in
  let bytes := list_byte_of_string batch.(cursor) in
  let* r := call (file_write_all path bytes) (EvWriteAll path bytes) in
  unwrap r.

(** [Read::read_to_string] into an empty [String]: the number of bytes read
    and the string, or [InvalidData] when the bytes are not UTF-8. *)
Definition read_to_string (path : string) : M W (IoResult (nat * string)) :=
  let* r := call (file_read_to_end path) (EvFileRead path) in
  match r with
  | Err e => ret (Err e)
  | Ok bytes =>
      if valid_utf8 bytes then ret (Ok (length bytes, string_of_list_byte bytes))
      else ret (Err InvalidData)
  end.

Definition journal_seek_target (file_path : string) : M W JournalSeek :=
  let* r := call (file_open file_path) (EvFileOpen file_path) in
  match r with
  | Err _ => ret Head
  | Ok _file =>
      let* rr := read_to_string file_path in
      let* nc := unwrap rr in
      if 0 =? fst nc then ret Head else ret (Cursor (snd nc))
  end.

Definition init_journal (config : Config) : M W unit :=
  let* r := call journal_open EvJournalOpen in
  let* _j := unwrap r in
  let* target := journal_seek_target config.(cursor_file) in
  let* r := call (journal_seek target) (EvJournalSeek target) in
  unwrap r.

(** The two request literals of [create_or_find_log_stream]. *)
Definition describe_log_streams_request (config : Config) : DescribeLogStreamsRequest :=
  {| dls_log_group_name := config.(log_group_name);
     dls_log_stream_name_prefix := Some config.(log_stream_name);
     dls_descending := None; dls_limit := None;
     dls_next_token := None; dls_order_by := None |}.

Definition create_log_stream_request (config : Config) : CreateLogStreamRequest :=
  {| cls_log_group_name := config.(log_group_name);
     cls_log_stream_name := config.(log_stream_name) |}.

Definition create_or_find_log_stream (config : Config) : M W (option string) :=
  let req := describe_log_streams_request config in
  let* r := call (describe_log_streams req) (EvDescribe req) in
  let* response := unwrap r in
  let found := match response.(log_streams) with
               | Some streams =>
                   match streams with
                   | s0 :: _ => Some s0.(ls_upload_sequence_token)
                   | [] => None
                   end
               | None => None
               end in
  match found with
  | Some tok => ret tok
  | None =>
      let creq := create_log_stream_request config in
      let* r := call (create_log_stream creq) (EvCreateStream creq) in
      let* _u := unwrap r in
      ret None
  end.

Definition init_runtime (config : Config) : M W unit :=
  let* _u := init_journal config in
  let* aws_cursor := create_or_find_log_stream config in
  set_aws_cursor aws_cursor.

(** One turn of the [loop] in [main]. *)
Definition main_iteration (config : Config) : M W unit :=
  let* b := read_batch config in
  match b with
  | None => sleep config
  | Some batch =>
      let* _u := upload_logs config batch in
      persist_cursor config batch
  end.

(** The unbounded [loop], observed for its first [fuel] turns. *)
Fixpoint main_loop (config : Config) (fuel : nat) : M W unit :=
  match fuel with
  | O => ret tt
  | S n => let* _u := main_iteration config in main_loop config n
  end.

Definition main_with (config : Config) (fuel : nat) : M W unit :=
  let* _u := init_runtime config in main_loop config fuel.

End Program.

(** ** [read_config] and [main] *)

(** [std::env::VarError]. *)
Inductive VarError : Type :=
| NotPresent
| NotUnicode.

(** [std::env::var] over the process environment, a list of
    [(name, value)] pairs in the order of [environ] ([getenv] takes the first
    match); a value that is not UTF-8 is [NotUnicode]. *)
Definition env_var (env : list (string * string)) (key : string) : Result string VarError :=
  match find (fun kv => String.eqb (fst kv) key) env with
  | Some (_, v) => if valid_utf8 (list_byte_of_string v) then Ok v else Err NotUnicode
  | None => Err NotPresent
  end.

(** [Result::unwrap_or]. *)
Definition unwrap_or {A E} (r : Result A E) (d : A) : A :=
  match r with
  | Ok a => a
  | Err _ => d
  end.

(** [Result::expect]: the panic message is [msg] (the error's [Debug] text
    that Rust appends is not modelled, as for [unwrap]). *)
Definition expect {W A E} (r : Result A E) (msg : string) : M W A :=
  match r with
  | Ok a => ret a
  | Err _ => panic msg
  end.

(** [<u32 as FromStr>::from_str] ([u32::from_str_radix(s, 10)]): an
    optional leading '+', then at least one decimal digit; each digit is
    accumulated with [checked_mul(10)] and [checked_add], and an overflow of
    u32 is an error.  The error kind is not modelled ([None]). *)
Definition digit_value (c : ascii) : option N :=
  let n := nat_of_ascii c in
  if (48 <=? n) && (n <=? 57) then Some (N.of_nat (n - 48)) else None.

Fixpoint parse_digits (s : string) (acc : N) : option N :=
  match s with
  | EmptyString => Some acc
  | String c s' =>
      match digit_value c with
      | None => None
      | Some d =>
          let acc' := (acc * 10 + d)%N in
          if (acc' <? 2 ^ 32)%N then parse_digits s' acc' else None
      end
  end.

Definition parse_u32 (s : string) : option N :=
  match s with
  | EmptyString => None
  | String c rest =>
      if Ascii.eqb c "+"%char then
        match rest with
        | EmptyString => None
        | _ => parse_digits rest 0
        end
      else parse_digits s 0
  end.

(** [read_config]: the fields in the order of the struct expression.
    [region::default_region()] is the argument [default_region]. *)
Definition read_config {W} (default_region : string) (env : list (string * string))
  : M W Config :=
  let aws_region := default_region in
  let* batch_size :=
    match parse_u32 (unwrap_or (env_var env "BATCH_SIZE"%string) "500"%string) with
    | Some n => ret n
    | None => panic "invalid JOURNAL_CURSOR_FILE not a valid u32"%string
    end in
  let cursor_file :=
    unwrap_or (env_var env "JOURNAL_CURSOR_FILE"%string)
              "/var/lib/cloudjournal/current-cursor"%string in
  let sleep_time := 500%Z in
  let* log_group_name :=
    expect (env_var env "LOG_GROUP_NAME"%string)
           "Missing LOG_GROUP_NAME envirenoment variable"%string in
  let* log_stream_name :=
    expect (env_var env "LOG_STREAM_NAME"%string)
           "Missing LOG_STREAM_NAME envirenoment variable"%string in
  ret {| aws_region := aws_region; cursor_file := cursor_file; batch_size := batch_size;
         sleep_time := sleep_time; log_group_name := log_group_name;
         log_stream_name := log_stream_name |}.

(** [main]; [env_logger::init()] only configures logging, and its result is
    discarded. *)
Definition main {W} `{Env W} (default_region : string) (env : list (string * string))
  (fuel : nat) : M W unit :=
  let* config := read_config default_region env in
  main_with config fuel.

(** ** A concrete world

    A model of the collaborators, used to run the program on concrete inputs.
    The journal is a list of entries, each with its cursor string; as with
    [sd_journal], the reader either sits before entry [n] (after a seek: the
    next read returns entry [n]) or on entry [n] (after reading it; the cursor
    query names entry [n]); reading at the end returns [None] and does not
    move.  Seeking to a cursor that names no entry is reported as an error.
    The file system maps paths to contents; [sw_locked] paths exist but
    cannot be opened or created.  [File::create] truncates, [write_all]
    writes at the end of what the handle has written.  The log group holds
    streams in name order; an upload must name an existing stream and carry
    its current token, and then receives a fresh token.  Every clock reading
    takes one millisecond.  [sw_faults] lists the calls that fail. *)

Inductive JPos : Type :=
| Before (n : nat)
| On (n : nat).

Record SimJournal : Type := {
  j_entries : list (string * JournalRecord);
  j_pos : JPos
}.

Record SimStream : Type := {
  s_name : string;
  s_token : option string;
  s_events : list InputLogEvent
}.

Inductive Fault : Type :=
| FJournalOpen | FNext | FCursor | FDescribe | FCreateStream | FPut | FCreate | FWrite.

Definition fault_eqb (a b : Fault) : bool :=
  match a, b with
  | FJournalOpen, FJournalOpen | FNext, FNext | FCursor, FCursor
  | FDescribe, FDescribe | FCreateStream, FCreateStream | FPut, FPut
  | FCreate, FCreate | FWrite, FWrite => true
  | _, _ => false
  end.

Record SimWorld : Type := {
  sw_journal : SimJournal;
  sw_files : list (string * list byte);
  sw_locked : list string;
  sw_streams : list SimStream;
  sw_token_counter : nat;
  sw_clock : Z;
  sw_faults : list Fault
}.

Definition has_fault (w : SimWorld) (f : Fault) : bool := existsb (fault_eqb f) w.(sw_faults).

Definition with_journal (w : SimWorld) (j : SimJournal) : SimWorld :=
  {| sw_journal := j; sw_files := w.(sw_files); sw_locked := w.(sw_locked);
     sw_streams := w.(sw_streams); sw_token_counter := w.(sw_token_counter);
     sw_clock := w.(sw_clock); sw_faults := w.(sw_faults) |}.

Definition with_files (w : SimWorld) (fs : list (string * list byte)) : SimWorld :=
  {| sw_journal := w.(sw_journal); sw_files := fs; sw_locked := w.(sw_locked);
     sw_streams := w.(sw_streams); sw_token_counter := w.(sw_token_counter);
     sw_clock := w.(sw_clock); sw_faults := w.(sw_faults) |}.

Definition with_streams (w : SimWorld) (ss : list SimStream) (cnt : nat) : SimWorld :=
  {| sw_journal := w.(sw_journal); sw_files := w.(sw_files); sw_locked := w.(sw_locked);
     sw_streams := ss; sw_token_counter := cnt;
     sw_clock := w.(sw_clock); sw_faults := w.(sw_faults) |}.

Definition with_clock (w : SimWorld) (c : Z) : SimWorld :=
  {| sw_journal := w.(sw_journal); sw_files := w.(sw_files); sw_locked := w.(sw_locked);
     sw_streams := w.(sw_streams); sw_token_counter := w.(sw_token_counter);
     sw_clock := c; sw_faults := w.(sw_faults) |}.

Fixpoint find_cursor (c : string) (es : list (string * JournalRecord)) (i : nat) : option nat :=
  match es with
  | [] => None
  | (c', _) :: es' => if String.eqb c c' then Some i else find_cursor c es' (S i)
  end.

(** Index of the entry the next read returns. *)
Definition next_index (p : JPos) : nat :=
  match p with
  | Before n => n
  | On n => S n
  end.

Definition sim_next (j : SimJournal) : option JournalRecord * SimJournal :=
  let i := next_index j.(j_pos) in
  match nth_error j.(j_entries) i with
  | Some (_, r) => (Some r, {| j_entries := j.(j_entries); j_pos := On i |})
  | None => (None, j)
  end.

Definition sim_seek (t : JournalSeek) (j : SimJournal) : option SimJournal :=
  let mk p := Some {| j_entries := j.(j_entries); j_pos := p |} in
  match t with
  | Head => mk (Before 0)
  | Tail => mk (Before (length j.(j_entries)))
  | Current => Some j
  | Cursor c =>
      match find_cursor c j.(j_entries) 0 with
      | Some i => mk (Before i)
      | None => None
      end
  end.

Definition sim_cursor (j : SimJournal) : option string :=
  match j.(j_pos) with
  | On n => option_map fst (nth_error j.(j_entries) n)
  | Before _ => None
  end.

Fixpoint lookup_file (p : string) (fs : list (string * list byte)) : option (list byte) :=
  match fs with
  | [] => None
  | (p', c) :: fs' => if String.eqb p p' then Some c else lookup_file p fs'
  end.

Fixpoint set_file (p : string) (c : list byte) (fs : list (string * list byte))
  : list (string * list byte) :=
  match fs with
  | [] => [(p, c)]
  | (p', c') :: fs' => if String.eqb p p' then (p, c) :: fs' else (p', c') :: set_file p c fs'
  end.

Definition is_locked (w : SimWorld) (p : string) : bool := existsb (String.eqb p) w.(sw_locked).

Fixpoint decimal (fuel n : nat) (acc : string) : string :=
  match fuel with
  | O => acc
  | S f =>
      let acc' := String (ascii_of_nat (48 + n mod 10)) acc in
      if n <? 10 then acc' else decimal f (n / 10) acc'
  end.

Definition token_of (n : nat) : string := decimal 20 n EmptyString.

Fixpoint find_stream (name : string) (ss : list SimStream) : option SimStream :=
  match ss with
  | [] => None
  | s :: ss' => if String.eqb name s.(s_name) then Some s else find_stream name ss'
  end.

Fixpoint insert_stream (s : SimStream) (ss : list SimStream) : list SimStream :=
  match ss with
  | [] => [s]
  | s' :: ss' => if String.leb s.(s_name) s'.(s_name) then s :: ss
                 else s' :: insert_stream s ss'
  end.

Definition update_stream (s : SimStream) (ss : list SimStream) : list SimStream :=
  map (fun s' => if String.eqb s.(s_name) s'.(s_name) then s else s') ss.

Definition option_string_eqb (a b : option string) : bool :=
  match a, b with
  | Some x, Some y => String.eqb x y
  | None, None => true
  | _, _ => false
  end.

Definition sim_prefix_match (req : DescribeLogStreamsRequest) (s : SimStream) : bool :=
  match req.(dls_log_stream_name_prefix) with
  | Some p => String.prefix p s.(s_name)
  | None => true
  end.

#[export] Instance SimEnv : Env SimWorld := {
  journal_open w := if has_fault w FJournalOpen then (Err OtherError, w)
                    else (Ok tt, with_journal w {| j_entries := w.(sw_journal).(j_entries);
                                                   j_pos := Before 0 |});
  journal_seek t w :=
    match sim_seek t w.(sw_journal) with
    | Some j => (Ok tt, with_journal w j)
    | None => (Err InvalidData, w)
    end;
  journal_next_record w :=
    if has_fault w FNext then (Err OtherError, w)
    else let (r, j) := sim_next w.(sw_journal) in (Ok r, with_journal w j);
  journal_cursor w :=
    if has_fault w FCursor then (Err OtherError, w)
    else match sim_cursor w.(sw_journal) with
         | Some c => (Ok c, w)
         | None => (Err OtherError, w)
         end;
  describe_log_streams req w :=
    if has_fault w FDescribe then (Err OtherError, w)
    else (Ok {| log_streams :=
                  Some (map (fun s => {| ls_log_stream_name := s.(s_name);
                                         ls_upload_sequence_token := s.(s_token) |})
                            (filter (sim_prefix_match req) w.(sw_streams))) |}, w);
  create_log_stream req w :=
    if has_fault w FCreateStream then (Err OtherError, w)
    else match find_stream req.(cls_log_stream_name) w.(sw_streams) with
         | Some _ => (Err OtherError, w)
         | None => (Ok tt, with_streams w
                             (insert_stream {| s_name := req.(cls_log_stream_name);
                                               s_token := None; s_events := [] |}
                                            w.(sw_streams))
                             w.(sw_token_counter))
         end;
  put_log_events req w :=
    if has_fault w FPut then (Err OtherError, w)
    else match find_stream req.(ple_log_stream_name) w.(sw_streams) with
         | None => (Err NotFound, w)
         | Some s =>
             if option_string_eqb s.(s_token) req.(ple_sequence_token) then
               let tok := Some (token_of w.(sw_token_counter)) in
               (Ok {| next_sequence_token := tok |},
                with_streams w
                  (update_stream {| s_name := s.(s_name); s_token := tok;
                                    s_events := s.(s_events) ++ req.(ple_log_events) |}
                                 w.(sw_streams))
                  (S w.(sw_token_counter)))
             else (Err InvalidData, w)
         end;
  file_open p w :=
    if is_locked w p then (Err PermissionDenied, w)
    else match lookup_file p w.(sw_files) with
         | Some _ => (Ok tt, w)
         | None => (Err NotFound, w)
         end;
  file_read_to_end p w :=
    match lookup_file p w.(sw_files) with
    | Some c => (Ok c, w)
    | None => (Err NotFound, w)
    end;
  file_create p w :=
    if is_locked w p || has_fault w FCreate then (Err PermissionDenied, w)
    else (Ok tt, with_files w (set_file p [] w.(sw_files)));
  file_write_all p bytes w :=
    if has_fault w FWrite then (Err OtherError, w)
    else match lookup_file p w.(sw_files) with
         | Some c => (Ok tt, with_files w (set_file p (c ++ bytes) w.(sw_files)))
         | None => (Err NotFound, w)
         end;
  system_time_now w := (w.(sw_clock), with_clock w (w.(sw_clock) + 1000000)%Z);
  thread_sleep ms w := with_clock w (w.(sw_clock) + ms * 1000000)%Z
}.

Definition start (w : SimWorld) : St SimWorld := mkSt w None [].

Definition events_of {A} (r : Outcome A * St SimWorld) : list Event :=
  map fst (snd r).(st_trace).

(** Example inputs *)
Definition rec_of (msg : string) : JournalRecord := [("MESSAGE"%string, msg)].

Definition journal5 : SimJournal :=
  {| j_entries := [("s=1"%string, rec_of "a"); ("s=2"%string, rec_of "b");
                   ("s=3"%string, rec_of "c"); ("s=4"%string, rec_of "d");
                   ("s=5"%string, rec_of "e")];
     j_pos := Before 0 |}.

Definition cfg (n : N) : Config :=
  {| aws_region := "eu-west-1"; cursor_file := "/var/lib/cloudjournal/current-cursor";
     batch_size := n; sleep_time := 500; log_group_name := "hosts";
     log_stream_name := "app" |}.

Definition world0 : SimWorld :=
  {| sw_journal := journal5; sw_files := []; sw_locked := []; sw_streams := [];
     sw_token_counter := 0; sw_clock := 1700000000000000000; sw_faults := [] |}.

(** ** Trace monitors

    A monitor reads the trace of external calls one event at a time and
    either moves to a new phase or rejects the event. *)

Fixpoint run_monitor {Ph : Type} (step : Ph -> Event -> option Ph) (p : Ph) (es : list Event)
  : option Ph :=
  match es with
  | [] => Some p
  | e :: es' =>
      match step p e with
      | Some q => run_monitor step q es'
      | None => None
      end
  end.

(** The shipping discipline of the main loop.  [Reading recs]: inside
    [read_batch], [recs] consumed so far; [Shipping recs c]: the batch [recs]
    with cursor [c] is formed and being uploaded; [Uploaded c]: its upload
    returned successfully; [Created c]: the cursor file has been truncated;
    writing exactly the bytes of [c] ends the iteration.  A cursor-file event
    is accepted only in [Uploaded]/[Created], an upload only if it carries
    the JSON of the records read in the same iteration, a sleep only when no
    record was read.  A failed call moves to [Failed], where the only
    acceptable event is the panic; after a panic nothing is accepted. *)
Inductive Phase : Type :=
| Reading (recs : list JournalRecord)
| Shipping (recs : list JournalRecord) (c : string)
| Uploaded (c : string)
| Created (c : string)
| Failed
| Halted.

Definition bytes_eqb (a b : list byte) : bool :=
  if list_eq_dec Byte.byte_eq_dec a b then true else false.

Definition messages_eqb (a b : list string) : bool :=
  if list_eq_dec string_dec a b then true else false.

Definition shipping_step (config : Config) (p : Phase) (e : Event) : option Phase :=
  match p with
  | Halted => None
  | Failed => match e with EvPanic _ => Some Halted | _ => None end
  | Reading recs =>
      match e with
      | EvPanic _ => Some Halted
      | EvNextRecord (Ok (Some r)) => Some (Reading (recs ++ [r]))
      | EvNextRecord (Ok None) => Some (Reading recs)
      | EvNextRecord (Err _) => Some Failed
      | EvCursor r =>
          match recs with
          | [] => None
          | _ :: _ => match r with Ok c => Some (Shipping recs c) | Err _ => Some Failed end
          end
      | EvSleep _ => match recs with [] => Some (Reading []) | _ :: _ => None end
      | _ => None
      end
  | Shipping recs c =>
      match e with
      | EvPanic _ => Some Halted
      | EvNow _ => Some (Shipping recs c)
      | EvPut req (Ok _) =>
          if messages_eqb (map message req.(ple_log_events)) (map json_of_record recs)
          then Some (Uploaded c) else None
      | EvPut _ (Err _) => Some Failed
      | _ => None
      end
  | Uploaded c =>
      match e with
      | EvPanic _ => Some Halted
      | EvFileCreate path (Ok _) =>
          if String.eqb path config.(cursor_file) then Some (Created c) else None
      | EvFileCreate _ (Err _) => Some Failed
      | _ => None
      end
  | Created c =>
      match e with
      | EvPanic _ => Some Halted
      | EvWriteAll path bytes (Ok _) =>
          if String.eqb path config.(cursor_file) && bytes_eqb bytes (list_byte_of_string c)
          then Some (Reading []) else None
      | EvWriteAll _ _ (Err _) => Some Failed
      | _ => None
      end
  end.

(** The sequence-token discipline: the phase is the token the next upload
    must carry; every upload must carry it, and a successful one installs the
    token of its response. *)
Definition option_string_dec (a b : option string) : {a = b} + {a <> b}.
Proof. decide equality; apply string_dec. Defined.

Definition token_step (t : option string) (e : Event) : option (option string) :=
  match e with
  | EvPut req r =>
      if option_string_dec req.(ple_sequence_token) t then
        match r with
        | Ok resp => Some resp.(next_sequence_token)
        | Err _ => Some t
        end
      else None
  | _ => Some t
  end.

(** The upload calls of a trace, with their results. *)
Fixpoint puts_of (es : list Event) : list (PutLogEventsRequest * IoResult PutLogEventsResponse) :=
  match es with
  | [] => []
  | EvPut req r :: es' => (req, r) :: puts_of es'
  | _ :: es' => puts_of es'
  end.

(** Each upload carries the token [t] held at that point: initially the
    given one, then the one returned by the last successful upload. *)
Fixpoint chained (t : option string)
  (ps : list (PutLogEventsRequest * IoResult PutLogEventsResponse)) : Prop :=
  match ps with
  | [] => True
  | (req, r) :: ps' =>
      req.(ple_sequence_token) = t /\
      chained (match r with Ok resp => resp.(next_sequence_token) | Err _ => t end) ps'
  end.

Fixpoint held_token (t : option string)
  (ps : list (PutLogEventsRequest * IoResult PutLogEventsResponse)) : option string :=
  match ps with
  | [] => t
  | (_, r) :: ps' =>
      held_token (match r with Ok resp => resp.(next_sequence_token) | Err _ => t end) ps'
  end.

(** Calls that report a failure. *)
Definition failed_call (e : Event) : bool :=
  match e with
  | EvNextRecord (Err _) | EvCursor (Err _) | EvPut _ (Err _)
  | EvFileCreate _ (Err _) | EvWriteAll _ _ (Err _) => true
  | _ => false
  end.

Definition is_panic (e : Event) : bool :=
  match e with EvPanic _ => true | _ => false end.

Definition is_create_stream (e : Event) : bool :=
  match e with EvCreateStream _ _ => true | _ => false end.

Definition batch_phase (ob : option LogBatch) : Phase :=
  match ob with
  | None => Reading []
  | Some b => Shipping b.(logs) b.(cursor)
  end.

Definition input_events (recs : list JournalRecord) (ts : list Z) : list InputLogEvent :=
  map (fun p => {| message := json_of_record (fst p); timestamp := current_ms_of (snd p) |})
      (combine recs ts).

(** A journal position is well formed when it lies within the entries:
    before an existing entry or at the end, or on an existing entry. *)
Definition pos_ok (j : SimJournal) : bool :=
  match j.(j_pos) with
  | Before n => n <=? length j.(j_entries)
  | On n => n <? length j.(j_entries)
  end.



(** ** Example inputs *)

(** Example inputs for startup: the stream already exists with a token. *)
Definition app_stream (tok : option string) : SimStream :=
  {| s_name := "app"; s_token := tok; s_events := [] |}.

Definition world_existing : SimWorld :=
  {| sw_journal := journal5; sw_files := []; sw_locked := [];
     sw_streams := [app_stream (Some "7"%string)];
     sw_token_counter := 8; sw_clock := 1700000000000000000; sw_faults := [] |}.

(** Example input: the group holds "app-worker" (token "3") but no stream
    named "app", the configured one. *)
Definition world_prefix_only : SimWorld :=
  {| sw_journal := journal5; sw_files := []; sw_locked := [];
     sw_streams := [{| s_name := "app-worker"; s_token := Some "3"%string; s_events := [] |}];
     sw_token_counter := 4; sw_clock := 1700000000000000000; sw_faults := [] |}.

Definition resp_prefix_only : DescribeLogStreamsResponse :=
  {| log_streams := Some [{| ls_log_stream_name := "app-worker";
                             ls_upload_sequence_token := Some "3"%string |}] |}.

(** Example inputs: a cursor file that exists with contents "s=3" but cannot
    be opened; a cursor file holding a byte that is not UTF-8. *)
Definition cursor_path : string := "/var/lib/cloudjournal/current-cursor".

Definition world_with_file (locked : bool) (contents : list byte) : SimWorld :=
  {| sw_journal := journal5; sw_files := [(cursor_path, contents)];
     sw_locked := if locked then [cursor_path] else [];
     sw_streams := [app_stream None]; sw_token_counter := 0;
     sw_clock := 1700000000000000000; sw_faults := [] |}.

(** Batches: one record under cursor "s=2", and the first two records of
    [journal5], the second under cursor "s=2". *)
Definition batch_s2 : LogBatch := {| cursor := "s=2"; logs := [rec_of "b"] |}.

(** A runtime holding token "7" for the existing stream "app". *)
Definition upload_start : St SimWorld := mkSt world_existing (Some "7"%string) [].

Definition batch_ab : LogBatch := {| logs := [rec_of "a"; rec_of "b"]; cursor := "s=2" |}.

(** [journal5] read to its end. *)
Definition world_caught_up : SimWorld :=
  with_journal world0 {| j_entries := j_entries journal5; j_pos := On 4 |}.

(** ** Observations of a run *)

(** The records the journal handed out, in the order of the calls. *)
Fixpoint records_read (es : list Event) : list JournalRecord :=
  match es with
  | [] => []
  | EvNextRecord (Ok (Some r)) :: es' => r :: records_read es'
  | _ :: es' => records_read es'
  end.

(** The messages of the upload calls that succeeded, in the order of the
    calls. *)
Fixpoint messages_uploaded (es : list Event) : list string :=
  match es with
  | [] => []
  | EvPut req (Ok _) :: es' => map message (ple_log_events req) ++ messages_uploaded es'
  | _ :: es' => messages_uploaded es'
  end.

(** ** Assertions over runs *)

Section Assertions.
Context {W : Type} `{Env W}.

Definition triple {Ph A : Type} (step : Ph -> Event -> option Ph) (p : Ph) (m : M W A)
  (s : St W) (Q : Outcome A -> St W -> Ph -> Prop) : Prop :=
  exists d q, st_trace (snd (m s)) = st_trace s ++ d /\
              run_monitor step p (map fst d) = Some q /\
              Q (fst (m s)) (snd (m s)) q.

(** The post-condition "ends in phase [post a], or panicked". *)
Definition ends_in {A} (post : A -> Phase) : Outcome A -> St W -> Phase -> Prop :=
  fun o _ q => match o with
               | Done a => q = post a
               | Panicked _ => q = Halted
               end.

(** The monitor's phase is the runtime's [aws_cursor] after every completed
    call. *)
Definition tok_inv {A} : Outcome A -> St W -> option string -> Prop :=
  fun o s' q => match o with
                | Done _ => q = st_aws_cursor s'
                | Panicked _ => True
                end.

(** Computations that emit no upload and leave [aws_cursor] alone. *)
Definition tok_frame {A} (s : St W) : Outcome A -> St W -> option string -> Prop :=
  fun o s' q => match o with
                | Done _ => q = st_aws_cursor s /\ st_aws_cursor s' = st_aws_cursor s
                | Panicked _ => True
                end.

End Assertions.

(** ** Hoare triples over the monad *)

Section Triples.
Context {W : Type} `{Env W}.

Lemma run_monitor_app {Ph : Type} (step : Ph -> Event -> option Ph) p a b :
  run_monitor step p (a ++ b) =
  match run_monitor step p a with Some q => run_monitor step q b | None => None end.
Proof.
  revert p; induction a as [|e a IH]; intros p; simpl; [reflexivity|].
  destruct (step p e); [apply IH | reflexivity].
Qed.

Lemma triple_conseq {Ph A} step (p : Ph) (m : M W A) s (Q Q' : Outcome A -> St W -> Ph -> Prop) :
  triple step p m s Q -> (forall o s' q, Q o s' q -> Q' o s' q) -> triple step p m s Q'.
Proof.
  intros (d & q & E & R & HQ) HQQ'. exists d, q. auto.
Qed.

Lemma triple_ret {Ph A} step (p : Ph) (a : A) (s : St W) Q :
  Q (Done a) s p -> triple step p (ret a) s Q.
Proof.
  intros HQ. exists [], p. unfold ret; simpl. rewrite app_nil_r. auto.
Qed.

Lemma triple_bind {Ph A B} step (p : Ph) (m : M W A) (f : A -> M W B) s Q R :
  triple step p m s Q ->
  (forall a s' q, Q (Done a) s' q -> triple step q (f a) s' R) ->
  (forall msg s' q, Q (Panicked msg) s' q -> R (Panicked msg) s' q) ->
  triple step p (bind m f) s R.
Proof.
  intros (d1 & q1 & E1 & R1 & Q1) Hf Hp. unfold triple, bind.
  destruct (m s) as [[a|msg] s1] eqn:Em; simpl in *.
  - destruct (Hf a s1 q1 Q1) as (d2 & q2 & E2 & R2 & Q2).
    exists (d1 ++ d2), q2. split; [rewrite E2, E1, app_assoc; reflexivity|].
    split; [rewrite map_app, run_monitor_app, R1; exact R2 | exact Q2].
  - exists d1, q1. simpl. auto.
Qed.

Lemma triple_call {Ph R} step (p : Ph) (op : W -> R * W) (ev : R -> Event) s Q :
  (forall r w', op (st_world s) = (r, w') ->
     exists q, step p (ev r) = Some q /\
               Q (Done r) (mkSt w' (st_aws_cursor s) (st_trace s ++ [(ev r, w')])) q) ->
  triple step p (call op ev) s Q.
Proof.
  intros Hop. unfold call, triple.
  destruct (op (st_world s)) as [r w'] eqn:E.
  destruct (Hop r w' eq_refl) as (q & Hs & HQ).
  exists [(ev r, w')], q. simpl. rewrite Hs. auto.
Qed.

Lemma triple_panic {Ph A} step (p : Ph) msg s (Q : Outcome A -> St W -> Ph -> Prop) :
  (exists q, step p (EvPanic msg) = Some q /\ Q (Panicked msg) (log_event (EvPanic msg) s) q) ->
  triple step p (panic msg) s Q.
Proof.
  intros (q & Hs & HQ). exists [(EvPanic msg, st_world s)], q. simpl. rewrite Hs. auto.
Qed.

Lemma triple_get {Ph} step (p : Ph) (s : St W) Q :
  Q (Done (st_aws_cursor s)) s p -> triple step p get_aws_cursor s Q.
Proof.
  intros HQ. exists [], p. simpl. rewrite app_nil_r. auto.
Qed.

Lemma triple_set {Ph} step (p : Ph) t (s : St W) Q :
  Q (Done tt) (mkSt (st_world s) t (st_trace s)) p -> triple step p (set_aws_cursor t) s Q.
Proof.
  intros HQ. exists [], p. simpl. rewrite app_nil_r. auto.
Qed.

End Triples.

Section ShippingDiscipline.
Context {W : Type} `{Env W}.

Lemma triple_bind_ret {Ph A B} step (p : Ph) (a : A) (f : A -> M W B) s Q :
  triple step p (f a) s Q -> triple step p (bind (ret a) f) s Q.
Proof. intros Hf. exact Hf. Qed.

Lemma triple_bind_get {Ph B} step (p : Ph) (f : option string -> M W B) s Q :
  triple step p (f (st_aws_cursor s)) s Q -> triple step p (bind get_aws_cursor f) s Q.
Proof. intros Hf. exact Hf. Qed.

Lemma triple_bind_panic {Ph A B} step (p : Ph) msg (f : A -> M W B) s Q :
  triple step p (panic msg) s Q -> triple step p (bind (panic msg) f) s Q.
Proof. intros Hp. exact Hp. Qed.

(** A call whose every result the monitor accepts. *)
Lemma triple_call_stepped {Ph R} step (p : Ph) (op : W -> R * W) (ev : R -> Event) s :
  (forall r, step p (ev r) <> None) ->
  triple step p (call op ev) s
    (fun o s' q => exists r, o = Done r /\ step p (ev r) = Some q /\
                             st_aws_cursor s' = st_aws_cursor s).
Proof.
  intros Hacc. apply triple_call. intros r w' _.
  destruct (step p (ev r)) as [q|] eqn:E; [|exfalso; exact (Hacc r E)].
  exists q. split; [reflexivity|]. exists r. auto.
Qed.

Ltac unwrap_panic :=
  apply triple_bind_panic; apply triple_panic; eexists; split; reflexivity.

Lemma read_loop_shipping config n :
  forall logs s, triple (shipping_step config) (Reading logs) (read_loop n logs) s
                        (ends_in (fun l => Reading l)).
Proof.
  induction n as [|n IH]; intros logs s; simpl.
  - apply triple_ret. reflexivity.
  - eapply triple_bind; [apply triple_call_stepped; intros [[r|]|e]; simpl; discriminate| |].
    + intros a s' q (r & Ha & Hq & _). injection Ha as ->.
      destruct r as [[rec|]|e]; simpl in Hq; injection Hq as <-.
      * apply triple_bind_ret. apply IH.
      * apply triple_bind_ret. apply triple_ret. reflexivity.
      * unwrap_panic.
    + intros msg s' q (r & Ha & _). discriminate.
Qed.

Lemma read_batch_shipping config s :
  triple (shipping_step config) (Reading []) (read_batch config) s (ends_in batch_phase).
Proof.
  unfold read_batch. eapply triple_bind; [apply read_loop_shipping| |].
  - intros logs s' q Hq. simpl in Hq. subst q.
    destruct logs as [|r rs]; simpl.
    + apply triple_ret. reflexivity.
    + eapply triple_bind; [apply triple_call_stepped; intros [c|e]; simpl; discriminate| |].
      * intros a s'' q (res & Ha & Hq & _). injection Ha as ->.
        destruct res as [c|e]; simpl in Hq; injection Hq as <-.
        -- apply triple_bind_ret. apply triple_ret. reflexivity.
        -- unwrap_panic.
      * intros msg s'' q (res & Ha & _). discriminate.
  - intros msg s' q Hq. exact Hq.
Qed.

Lemma current_ms_shipping config recs c s :
  triple (shipping_step config) (Shipping recs c) current_ms s
    (ends_in (fun _ => Shipping recs c)).
Proof.
  unfold current_ms. eapply triple_bind; [apply triple_call_stepped; intros; simpl; discriminate| |].
  - intros t s' q (t' & Ht & Hq & _). injection Ht as <-. simpl in Hq. injection Hq as <-.
    destruct (t <? 0)%Z.
    + apply triple_panic. eexists; split; reflexivity.
    + apply triple_ret. reflexivity.
  - intros msg s' q (t' & Ht & _). discriminate.
Qed.

Lemma make_log_events_shipping config recs c :
  forall rs s, triple (shipping_step config) (Shipping recs c) (make_log_events rs) s
    (fun o _ q => match o with
                  | Done evs => q = Shipping recs c /\
                                map message evs = map json_of_record rs
                  | Panicked _ => q = Halted
                  end).
Proof.
  induction rs as [|r rs IH]; intros s; simpl.
  - apply triple_ret. auto.
  - apply triple_bind_ret.
    eapply triple_bind; [apply current_ms_shipping| |].
    + intros ts s' q Hq. simpl in Hq. subst q.
      eapply triple_bind; [apply IH| |].
      * intros evs s'' q [-> Hm]. apply triple_ret. simpl. rewrite Hm. auto.
      * intros msg s'' q Hq. exact Hq.
    + intros msg s' q Hq. exact Hq.
Qed.

Lemma upload_logs_shipping config b s :
  triple (shipping_step config) (Shipping b.(logs) b.(cursor)) (upload_logs config b) s
    (ends_in (fun _ => Uploaded b.(cursor))).
Proof.
  unfold upload_logs. apply triple_bind_get.
  eapply triple_bind; [apply make_log_events_shipping| |].
  - intros evs s'' q [-> Hm].
    eapply triple_bind.
    + apply triple_call_stepped. intros [resp|e]; simpl; [|discriminate].
      rewrite Hm. unfold messages_eqb. destruct (list_eq_dec _ _ _); [discriminate|].
      contradiction.
    + intros a s3 q (res & Ha & Hq & _). injection Ha as ->.
      destruct res as [resp|e]; simpl in Hq.
      * rewrite Hm in Hq. unfold messages_eqb in Hq.
        destruct (list_eq_dec _ _ _) as [_|n]; [|contradiction].
        injection Hq as <-. apply triple_bind_ret. apply triple_set. reflexivity.
      * injection Hq as <-. unwrap_panic.
    + intros msg s3 q (res & Ha & _). discriminate.
  - intros msg s'' q Hq. exact Hq.
Qed.

Lemma bytes_eqb_refl bs : bytes_eqb bs bs = true.
Proof. unfold bytes_eqb. destruct (list_eq_dec _ _ _); [reflexivity|contradiction]. Qed.

Lemma persist_cursor_shipping config b s :
  triple (shipping_step config) (Uploaded b.(cursor)) (persist_cursor config b) s
    (ends_in (fun _ => Reading [])).
Proof.
  unfold persist_cursor.
  eapply triple_bind.
  - apply triple_call_stepped. intros [u|e]; simpl; [rewrite String.eqb_refl|]; discriminate.
  - intros a s' q (res & Ha & Hq & _). injection Ha as ->.
    destruct res as [u|e]; simpl in Hq; [rewrite String.eqb_refl in Hq|];
      injection Hq as <-; [|unwrap_panic].
    apply triple_bind_ret.
    eapply triple_bind.
    + apply triple_call_stepped. intros [u'|e]; simpl;
        [rewrite String.eqb_refl, bytes_eqb_refl|]; discriminate.
    + intros a s'' q (res & Ha & Hq & _). injection Ha as ->.
      destruct res as [u'|e]; simpl in Hq; [rewrite String.eqb_refl, bytes_eqb_refl in Hq|];
        injection Hq as <-.
      * apply triple_ret. reflexivity.
      * apply triple_panic. eexists; split; reflexivity.
    + intros msg s'' q (res & Ha & _). discriminate.
  - intros msg s' q (res & Ha & _). discriminate.
Qed.

Lemma main_iteration_shipping config s :
  triple (shipping_step config) (Reading []) (main_iteration config) s
    (ends_in (fun _ => Reading [])).
Proof.
  unfold main_iteration. eapply triple_bind; [apply read_batch_shipping| |].
  - intros ob s' q Hq. simpl in Hq. subst q. destruct ob as [b|]; simpl.
    + eapply triple_bind; [apply upload_logs_shipping| |].
      * intros u s'' q Hq. simpl in Hq. subst q. apply persist_cursor_shipping.
      * intros msg s'' q Hq. exact Hq.
    + unfold sleep. apply triple_call. intros r w' _. exists (Reading []). split; reflexivity.
  - intros msg s' q Hq. exact Hq.
Qed.

Lemma main_loop_shipping config fuel :
  forall s, triple (shipping_step config) (Reading []) (main_loop config fuel) s
                   (ends_in (fun _ => Reading [])).
Proof.
  induction fuel as [|n IH]; intros s; simpl.
  - apply triple_ret. reflexivity.
  - eapply triple_bind; [apply main_iteration_shipping| |].
    + intros u s' q Hq. simpl in Hq. subst q. apply IH.
    + intros msg s' q Hq. exact Hq.
Qed.

End ShippingDiscipline.

(** ** Facts about the shipping monitor *)

Ltac destruct_matches_in H :=
  repeat match type of H with
         | context [match ?x with _ => _ end] => destruct x
         end.

Lemma shipping_step_into_uploaded config q e c :
  shipping_step config q e = Some (Uploaded c) -> exists req resp, e = EvPut req (Ok resp).
Proof.
  intros Hs. destruct q; simpl in Hs; try discriminate;
    destruct e; try discriminate; destruct_matches_in Hs; try discriminate; eauto.
Qed.

Lemma shipping_step_into_created config q e c :
  shipping_step config q e = Some (Created c) ->
  q = Uploaded c /\ exists path u, e = EvFileCreate path (Ok u).
Proof.
  intros Hs. destruct q; simpl in Hs; try discriminate;
    destruct e; try discriminate; destruct_matches_in Hs; try discriminate.
  injection Hs as <-. eauto.
Qed.

Lemma shipping_step_file_create config q path res q' :
  shipping_step config q (EvFileCreate path res) = Some q' -> exists c, q = Uploaded c.
Proof.
  intros Hs. destruct q; simpl in Hs; try discriminate; eauto.
Qed.

Lemma shipping_step_write_all config q path bytes res q' :
  shipping_step config q (EvWriteAll path bytes res) = Some q' -> exists c, q = Created c.
Proof.
  intros Hs. destruct q; simpl in Hs; try discriminate; eauto.
Qed.

Lemma shipping_step_failed config q e q' :
  failed_call e = true -> shipping_step config q e = Some q' -> q' = Failed.
Proof.
  intros Hf Hs. destruct e; simpl in Hf; try discriminate;
    destruct_matches_in Hf; try discriminate;
    destruct q; simpl in Hs; destruct_matches_in Hs; congruence.
Qed.

Lemma run_monitor_split {Ph} (step : Ph -> Event -> option Ph) p pre e post q :
  run_monitor step p (pre ++ e :: post) = Some q ->
  exists q0 q1, run_monitor step p pre = Some q0 /\ step q0 e = Some q1 /\
                run_monitor step q1 post = Some q.
Proof.
  rewrite run_monitor_app. intros Hr.
  destruct (run_monitor step p pre) as [q0|]; [|discriminate].
  simpl in Hr. destruct (step q0 e) as [q1|] eqn:E; [|discriminate]. eauto.
Qed.

Lemma run_monitor_snoc {Ph} (step : Ph -> Event -> option Ph) p l e q :
  run_monitor step p (l ++ [e]) = Some q ->
  exists q0, run_monitor step p l = Some q0 /\ step q0 e = Some q.
Proof.
  rewrite run_monitor_app. intros Hr.
  destruct (run_monitor step p l) as [q0|]; [|discriminate].
  simpl in Hr. destruct (step q0 e) as [q1|] eqn:E; [|discriminate].
  injection Hr as ->. exists q0. auto.
Qed.

Lemma shipping_reaches_uploaded config pre c :
  run_monitor (shipping_step config) (Reading []) pre = Some (Uploaded c) ->
  exists pre' req resp, pre = pre' ++ [EvPut req (Ok resp)].
Proof.
  destruct pre as [|e l] using rev_ind; simpl; [discriminate|]. intros Hr.
  destruct (run_monitor_snoc _ _ _ _ _ Hr) as (q0 & _ & Hs).
  destruct (shipping_step_into_uploaded _ _ _ _ Hs) as (req & resp & ->). eauto.
Qed.

Lemma shipping_reaches_created config pre c :
  run_monitor (shipping_step config) (Reading []) pre = Some (Created c) ->
  exists pre' req resp path u,
    pre = pre' ++ [EvPut req (Ok resp); EvFileCreate path (Ok u)].
Proof.
  destruct pre as [|e l] using rev_ind; simpl; [discriminate|]. intros Hr.
  destruct (run_monitor_snoc _ _ _ _ _ Hr) as (q0 & Hr0 & Hs).
  destruct (shipping_step_into_created _ _ _ _ Hs) as (-> & path & u & ->).
  destruct (shipping_reaches_uploaded _ _ _ Hr0) as (pre' & req & resp & ->).
  exists pre', req, resp, path, u. rewrite <- app_assoc. reflexivity.
Qed.

Lemma run_monitor_halted config es q :
  run_monitor (shipping_step config) Halted es = Some q -> es = [] /\ q = Halted.
Proof.
  intros Hr. destruct es; simpl in Hr; [injection Hr as <-; auto | discriminate].
Qed.

(** ** C1: the cursor is written only after the batch's upload succeeded *)

(** C1. Over any run of the main loop (any world, any number of turns), the
    calls made obey the shipping discipline of [shipping_step]: each cursor
    file write happens after the upload of the batch read in the same turn
    returned successfully, writes exactly that batch's cursor, and a turn
    whose read found no record sleeps without uploading or writing.  In
    particular every truncation of the cursor file is immediately preceded by
    a successful upload, and every cursor write by a successful upload and a
    successful truncation. *)
Theorem main_loop_cursor_after_upload {W : Type} `{Env W} (config : Config) (fuel : nat)
  (s : St W) :
  exists d,
    st_trace (snd (main_loop config fuel s)) = st_trace s ++ d /\
    (exists q, run_monitor (shipping_step config) (Reading []) (map fst d) = Some q /\
               q <> Failed) /\
    (forall pre path res post,
        map fst d = pre ++ EvFileCreate path res :: post ->
        exists pre' req resp, pre = pre' ++ [EvPut req (Ok resp)]) /\
    (forall pre path bytes res post,
        map fst d = pre ++ EvWriteAll path bytes res :: post ->
        exists pre' req resp path' u,
          pre = pre' ++ [EvPut req (Ok resp); EvFileCreate path' (Ok u)]).
Proof.
  destruct (main_loop_shipping config fuel s) as (d & q & Et & Hr & Hq).
  exists d. split; [exact Et|]. split; [|split].
  - exists q. split; [exact Hr|].
    destruct (fst (main_loop config fuel s)); simpl in Hq; subst q; discriminate.
  - intros pre path res post Ed. rewrite Ed in Hr.
    destruct (run_monitor_split _ _ _ _ _ _ Hr) as (q0 & q1 & Hpre & Hs & _).
    destruct (shipping_step_file_create _ _ _ _ _ Hs) as [c ->].
    exact (shipping_reaches_uploaded _ _ _ Hpre).
  - intros pre path bytes res post Ed. rewrite Ed in Hr.
    destruct (run_monitor_split _ _ _ _ _ _ Hr) as (q0 & q1 & Hpre & Hs & _).
    destruct (shipping_step_write_all _ _ _ _ _ _ Hs) as [c ->].
    exact (shipping_reaches_created _ _ _ Hpre).
Qed.

(** ** C7: every failure of a steady-state call is fatal *)

(** C7. In any run of the main loop, a failed journal read, cursor query,
    upload, cursor-file creation or cursor-file write is followed by exactly
    one more event, the panic, and the run ends panicking: no further read,
    upload, cursor write or sleep happens. *)
Theorem main_loop_failure_is_fatal {W : Type} `{Env W} (config : Config) (fuel : nat)
  (s : St W) :
  exists d,
    st_trace (snd (main_loop config fuel s)) = st_trace s ++ d /\
    forall pre e post,
      map fst d = pre ++ e :: post -> failed_call e = true ->
      (exists msg, post = [EvPanic msg]) /\
      (exists msg, fst (main_loop config fuel s) = Panicked msg).
Proof.
  destruct (main_loop_shipping config fuel s) as (d & q & Et & Hr & Hq).
  exists d. split; [exact Et|]. intros pre e post Ed Hf. rewrite Ed in Hr.
  destruct (run_monitor_split _ _ _ _ _ _ Hr) as (q0 & q1 & _ & Hs & Hpost).
  rewrite (shipping_step_failed _ _ _ _ Hf Hs) in Hpost.
  destruct post as [|e' post]; simpl in Hpost.
  - injection Hpost as <-.
    destruct (fst (main_loop config fuel s)); simpl in Hq; discriminate.
  - destruct e'; try discriminate.
    destruct (run_monitor_halted _ _ _ Hpost) as [-> ->].
    split; [eauto|].
    destruct (fst (main_loop config fuel s)) as [u|m]; simpl in Hq; [discriminate|eauto].
Qed.

(** ** The sequence-token discipline *)

Section TokenDiscipline.
Context {W : Type} `{Env W}.

Ltac tok_call :=
  eapply triple_bind;
  [ apply triple_call_stepped; intros; simpl; discriminate
  | let a := fresh "a" in let s' := fresh "s" in let q := fresh "q" in
    let r := fresh "r" in let Hq := fresh "Hq" in let Haws := fresh "Haws" in
    intros a s' q (r & Ha & Hq & Haws); injection Ha as ->; simpl in Hq;
    injection Hq as <-
  | let m := fresh "m" in let s' := fresh "s" in let q := fresh "q" in
    intros m s' q (? & Ha & _); discriminate ].

Ltac tok_panic := apply triple_panic; eexists; split; [reflexivity | exact I].

Lemma read_loop_token n :
  forall logs s, triple token_step (st_aws_cursor s) (read_loop n logs) s (tok_frame s).
Proof.
  induction n as [|n IH]; intros logs s; simpl.
  - apply triple_ret. simpl. auto.
  - tok_call. destruct r as [[rec|]|e].
    + apply triple_bind_ret. rewrite <- Haws.
      eapply triple_conseq; [apply IH|]. intros [] s'' q Hq; simpl in *; [|exact I].
      rewrite <- Haws. exact Hq.
    + apply triple_bind_ret. apply triple_ret. simpl. auto.
    + apply triple_bind_panic. tok_panic.
Qed.

Lemma read_batch_token config s :
  triple token_step (st_aws_cursor s) (read_batch config) s (tok_frame s).
Proof.
  unfold read_batch. eapply triple_bind; [apply read_loop_token| |].
  - intros logs s' q [-> Haws]. destruct (length logs =? 0).
    + apply triple_ret. simpl. auto.
    + rewrite <- Haws. tok_call. destruct r as [c|e].
      * apply triple_bind_ret. apply triple_ret. simpl. rewrite Haws0. auto.
      * apply triple_bind_panic. tok_panic.
  - intros. exact I.
Qed.

Lemma current_ms_token s :
  triple token_step (st_aws_cursor s) current_ms s (tok_frame s).
Proof.
  unfold current_ms. tok_call. destruct (r <? 0)%Z.
  - tok_panic.
  - apply triple_ret. simpl. auto.
Qed.

Lemma make_log_events_token rs :
  forall s, triple token_step (st_aws_cursor s) (make_log_events rs) s (tok_frame s).
Proof.
  induction rs as [|r rs IH]; intros s; simpl.
  - apply triple_ret. simpl. auto.
  - apply triple_bind_ret.
    eapply triple_bind; [apply current_ms_token| |].
    + intros ts s' q [-> Haws]. rewrite <- Haws.
      eapply triple_bind; [apply IH| |].
      * intros evs s'' q [-> Haws']. apply triple_ret. simpl. rewrite Haws', Haws. auto.
      * intros. exact I.
    + intros. exact I.
Qed.

Lemma upload_logs_token config b s :
  triple token_step (st_aws_cursor s) (upload_logs config b) s tok_inv.
Proof.
  unfold upload_logs. apply triple_bind_get.
  eapply triple_bind; [apply make_log_events_token| |].
  - intros evs s' q [-> Haws].
    eapply triple_bind.
    + apply triple_call_stepped. intros [resp|e]; simpl;
        (destruct (option_string_dec _ _); [discriminate|contradiction]).
    + intros a s'' q (res & Ha & Hq & Haws'). injection Ha as ->.
      simpl in Hq. destruct (option_string_dec _ _) as [_|n]; [|contradiction].
      destruct res as [resp|e].
      * injection Hq as <-. apply triple_bind_ret. apply triple_set. reflexivity.
      * apply triple_bind_panic. injection Hq as <-. tok_panic.
    + intros m s'' q (? & Ha & _). discriminate.
  - intros. exact I.
Qed.

Lemma persist_cursor_token config b s :
  triple token_step (st_aws_cursor s) (persist_cursor config b) s tok_inv.
Proof.
  unfold persist_cursor. tok_call. destruct r as [u|e].
  - apply triple_bind_ret. rewrite <- Haws. tok_call. destruct r as [u'|e].
    + apply triple_ret. simpl. congruence.
    + tok_panic.
  - apply triple_bind_panic. tok_panic.
Qed.

Lemma main_iteration_token config s :
  triple token_step (st_aws_cursor s) (main_iteration config) s tok_inv.
Proof.
  unfold main_iteration. eapply triple_bind; [apply read_batch_token| |].
  - intros ob s' q [-> Haws]. rewrite <- Haws. destruct ob as [b|].
    + eapply triple_bind; [apply upload_logs_token| |].
      * intros u s'' q ->. apply persist_cursor_token.
      * intros. exact I.
    + unfold sleep. apply triple_call. intros r w' _. eexists. split; reflexivity.
  - intros. exact I.
Qed.

Lemma main_loop_token config fuel :
  forall s, triple token_step (st_aws_cursor s) (main_loop config fuel) s tok_inv.
Proof.
  induction fuel as [|n IH]; intros s; simpl.
  - apply triple_ret. reflexivity.
  - eapply triple_bind; [apply main_iteration_token| |].
    + intros u s' q ->. apply IH.
    + intros. exact I.
Qed.

End TokenDiscipline.

Lemma token_monitor_chained es :
  forall t q, run_monitor token_step t es = Some q ->
              chained t (puts_of es) /\ q = held_token t (puts_of es).
Proof.
  induction es as [|e es IH]; intros t q Hr; simpl in Hr.
  - injection Hr as <-. simpl. auto.
  - destruct e; simpl in Hr; try (apply IH; exact Hr).
    destruct (option_string_dec _ _) as [Ht|]; [|discriminate].
    simpl. destruct r as [resp|err]; destruct (IH _ _ Hr) as [Hc Hq]; auto.
Qed.

(** ** C5: sequence tokens *)

(** C5 (as stated it fails): the first upload after startup does not carry
    the absent token when the stream already existed with a token: here the
    stream "app" exists with token "7", and the first upload of the run
    carries "7". *)
Lemma first_upload_token_not_absent :
  option_map (fun p => ple_sequence_token (fst p))
    (hd_error (puts_of (events_of (main_with (cfg 2) 1 (start world_existing)))))
  = Some (Some "7"%string).
Proof. vm_compute. reflexivity. Qed.

(** C5 (amended). In any run of the main loop, every upload call carries
    exactly the token the runtime holds at that point: the token held when
    the loop starts (the one [init_runtime] adopted at startup) for the first
    upload, and afterwards the token returned by the last successful upload;
    when the run has not panicked, the held token is the one returned by the
    last successful upload (or the starting one if none succeeded). *)
Theorem main_loop_upload_tokens_chained {W : Type} `{Env W} (config : Config) (fuel : nat)
  (s : St W) :
  exists d,
    st_trace (snd (main_loop config fuel s)) = st_trace s ++ d /\
    chained (st_aws_cursor s) (puts_of (map fst d)) /\
    (forall u, fst (main_loop config fuel s) = Done u ->
       st_aws_cursor (snd (main_loop config fuel s)) =
       held_token (st_aws_cursor s) (puts_of (map fst d))).
Proof.
  destruct (main_loop_token config fuel s) as (d & q & Et & Hr & Hq).
  destruct (token_monitor_chained _ _ _ Hr) as [Hc Hheld].
  exists d. split; [exact Et|]. split; [exact Hc|].
  intros u Hu. unfold tok_inv in Hq. rewrite Hu in Hq. congruence.
Qed.

(** ** C10 and C6: finding or creating the log stream *)

(** C10. The startup query asks for the streams whose name has the
    configured stream name as a prefix.  When it lists at least one stream,
    the first listed stream's token is adopted, whatever that stream's name,
    and the describe call is the only call made (no stream is created); when
    the list is absent or empty, the stream is created and, once that call
    succeeds, the token is absent. *)
Theorem create_or_find_adopts_first_listed {W : Type} `{Env W} (config : Config)
  (s : St W) (resp : DescribeLogStreamsResponse) (w1 : W)
  (Hdesc : describe_log_streams (describe_log_streams_request config) (st_world s)
           = (Ok resp, w1)) :
  dls_log_stream_name_prefix (describe_log_streams_request config)
    = Some (log_stream_name config) /\
  (forall s0 rest, log_streams resp = Some (s0 :: rest) ->
     create_or_find_log_stream config s =
     (Done (ls_upload_sequence_token s0),
      mkSt w1 (st_aws_cursor s)
           (st_trace s ++ [(EvDescribe (describe_log_streams_request config) (Ok resp), w1)]))) /\
  (log_streams resp = None \/ log_streams resp = Some [] ->
     forall w2, create_log_stream (create_log_stream_request config) w1 = (Ok tt, w2) ->
     create_or_find_log_stream config s =
     (Done None,
      mkSt w2 (st_aws_cursor s)
           (st_trace s ++ [(EvDescribe (describe_log_streams_request config) (Ok resp), w1);
                           (EvCreateStream (create_log_stream_request config) (Ok tt), w2)]))).
Proof.
  split; [reflexivity|]. split.
  - intros s0 rest Hl. unfold create_or_find_log_stream, bind, call.
    rewrite Hdesc. simpl. rewrite Hl. reflexivity.
  - intros Hl w2 Hcreate. unfold create_or_find_log_stream, bind, call.
    rewrite Hdesc. simpl.
    destruct Hl as [Hl|Hl]; rewrite Hl; simpl; rewrite Hcreate; simpl;
      rewrite <- app_assoc; reflexivity.
Qed.

Lemma create_or_find_adopts_first_listed_witness :
  describe_log_streams (describe_log_streams_request (cfg 2)) (st_world (start world_prefix_only))
    = (Ok resp_prefix_only, world_prefix_only) /\
  fst (create_or_find_log_stream (cfg 2) (start world_prefix_only)) = Done (Some "3"%string).
Proof.
  split; [reflexivity|].
  destruct (@create_or_find_adopts_first_listed SimWorld SimEnv (cfg 2) (start world_prefix_only)
              resp_prefix_only world_prefix_only ltac:(reflexivity)) as (_ & Hfound & _).
  rewrite (Hfound _ [] eq_refl). reflexivity.
Defined.

(** C6 (the code misses the case).  The configured stream "app" does not
    exist, only "app-worker" does: startup adopts app-worker's token "3"
    and creates no stream; the first upload, to "app", is then refused
    (the stream does not exist) and the process panics. *)
Lemma prefix_named_stream_adopted_instead_of_created :
  fst (create_or_find_log_stream (cfg 2) (start world_prefix_only)) = Done (Some "3"%string) /\
  existsb is_create_stream (events_of (main_with (cfg 2) 1 (start world_prefix_only))) = false /\
  map snd (puts_of (events_of (main_with (cfg 2) 1 (start world_prefix_only)))) = [Err NotFound] /\
  fst (main_with (cfg 2) 1 (start world_prefix_only))
    = Panicked "called `Result::unwrap()` on an `Err` value"%string.
Proof. vm_compute. repeat split. Qed.

(** ** C3: where the journal is positioned at startup *)

(** C3 (amended).  [journal_seek_target] decides on the cursor file as
    follows: if opening it fails, for any reason (absent, permission denied,
    ...), the target is [Head] and the file is not read; if it opens, reading
    it either fails (the process panics), or yields bytes: no bytes gives
    [Head], UTF-8 bytes give [Cursor] of the entire contents, unparsed, and
    bytes that are not UTF-8 make the process panic.  [init_journal] seeks
    the journal to this target. *)
Theorem journal_seek_target_cases {W : Type} `{Env W} (path : string) (s : St W) :
  match file_open path (st_world s) with
  | (Err _, _) => fst (journal_seek_target path s) = Done Head
  | (Ok _, w1) =>
      match file_read_to_end path w1 with
      | (Err _, _) => exists msg, fst (journal_seek_target path s) = Panicked msg
      | (Ok bytes, _) =>
          if valid_utf8 bytes then
            fst (journal_seek_target path s) =
            match bytes with
            | [] => Done Head
            | _ :: _ => Done (Cursor (string_of_list_byte bytes))
            end
          else exists msg, fst (journal_seek_target path s) = Panicked msg
      end
  end.
Proof.
  unfold journal_seek_target, read_to_string, bind, call.
  destruct (file_open path (st_world s)) as [[u|e] w1]; simpl; [|reflexivity].
  destruct (file_read_to_end path w1) as [[bytes|e] w2]; simpl; [|eauto].
  destruct (valid_utf8 bytes); simpl; [|eauto].
  destruct bytes; reflexivity.
Qed.

Lemma lookup_set_file p c fs : lookup_file p (set_file p c fs) = Some c.
Proof.
  induction fs as [|[p' c'] fs IH]; simpl.
  - rewrite String.eqb_refl. reflexivity.
  - destruct (String.eqb p p') eqn:E; simpl.
    + rewrite String.eqb_refl. reflexivity.
    + rewrite E. exact IH.
Qed.

Lemma has_fault_with_files w fs f : has_fault (with_files w fs) f = has_fault w f.
Proof. reflexivity. Qed.

(** C3 (as stated it fails): a non-empty cursor file that cannot be opened
    sends the journal to [Head], not to the cursor it holds; a non-empty
    file whose contents are not UTF-8 is validated and startup panics. *)
Lemma unreadable_cursor_file_seeks_head :
  lookup_file cursor_path (sw_files (world_with_file true (list_byte_of_string "s=3")))
    = Some (list_byte_of_string "s=3") /\
  events_of (init_journal (cfg 2) (start (world_with_file true (list_byte_of_string "s=3"))))
    = [EvJournalOpen (Ok tt); EvFileOpen cursor_path (Err PermissionDenied);
       EvJournalSeek Head (Ok tt)] /\
  fst (init_journal (cfg 2) (start (world_with_file false [Byte.xff])))
    = Panicked "called `Result::unwrap()` on an `Err` value"%string.
Proof. vm_compute. repeat split. Qed.

(** ** C4: writing the cursor file *)

(** C4 (amended).  When the cursor file can be created and written,
    [persist_cursor] succeeds and leaves the file holding exactly the bytes
    of the batch's cursor, whatever it held before; it does so in two steps,
    and between them (after [File::create] truncated it) the file is
    empty. *)
Theorem persist_cursor_replaces_contents (config : Config) (b : LogBatch) (w : SimWorld)
  (aws : option string) (tr : list (Event * SimWorld))
  (Hlock : is_locked w (cursor_file config) = false)
  (Hcreate : has_fault w FCreate = false)
  (Hwrite : has_fault w FWrite = false) :
  let r := persist_cursor config b (mkSt w aws tr) in
  exists w1 w2,
    r = (Done tt,
         mkSt w2 aws (tr ++ [(EvFileCreate (cursor_file config) (Ok tt), w1);
                             (EvWriteAll (cursor_file config)
                                (list_byte_of_string (cursor b)) (Ok tt), w2)])) /\
    lookup_file (cursor_file config) (sw_files w1) = Some [] /\
    lookup_file (cursor_file config) (sw_files w2) = Some (list_byte_of_string (cursor b)).
Proof.
  unfold persist_cursor, bind, call, unwrap, ret. simpl.
  rewrite Hlock, Hcreate. simpl. rewrite has_fault_with_files, Hwrite. simpl.
  rewrite lookup_set_file. simpl.
  eexists _, _. split; [rewrite <- app_assoc; reflexivity|].
  split; simpl; apply lookup_set_file.
Qed.

(** C4 (as stated it fails: the overwrite is not atomic).  The file holds
    "s=1"; while [persist_cursor] writes "s=2", the state after its first
    call has an empty file, which is neither, and a restart from that state
    seeks the journal to [Head]. *)
Lemma persist_cursor_not_atomic :
  let w := world_with_file false (list_byte_of_string "s=1") in
  let r := persist_cursor (cfg 2) batch_s2 (start w) in
  map (fun ew => lookup_file cursor_path (sw_files (snd ew))) (st_trace (snd r))
    = [Some []; Some (list_byte_of_string "s=2")] /\
  (forall w1, hd_error (map snd (st_trace (snd r))) = Some w1 ->
     fst (journal_seek_target cursor_path (start w1)) = Done Head).
Proof.
  split; [vm_compute; reflexivity|].
  intros w1 Hw1. vm_compute in Hw1. injection Hw1 as <-. vm_compute. reflexivity.
Qed.

Lemma persist_cursor_replaces_contents_witness :
  is_locked (world_with_file false (list_byte_of_string "s=1")) cursor_path = false /\
  has_fault (world_with_file false (list_byte_of_string "s=1")) FCreate = false /\
  has_fault (world_with_file false (list_byte_of_string "s=1")) FWrite = false /\
  exists w1 w2,
    persist_cursor (cfg 2) batch_s2 (start (world_with_file false (list_byte_of_string "s=1")))
    = (Done tt,
       mkSt w2 None [(EvFileCreate cursor_path (Ok tt), w1);
                     (EvWriteAll cursor_path (list_byte_of_string "s=2") (Ok tt), w2)]) /\
    lookup_file cursor_path (sw_files w1) = Some [] /\
    lookup_file cursor_path (sw_files w2) = Some (list_byte_of_string "s=2").
Proof.
  split; [reflexivity|]. split; [reflexivity|]. split; [reflexivity|].
  exact (persist_cursor_replaces_contents (cfg 2) batch_s2
           (world_with_file false (list_byte_of_string "s=1")) None []
           ltac:(reflexivity) ltac:(reflexivity) ltac:(reflexivity)).
Defined.

(** ** C8: the upload payload *)

Lemma wrap_i64_small x : (0 <= x < 2 ^ 63)%Z -> wrap_i64 x = x.
Proof.
  intros Hx. unfold wrap_i64. rewrite Z.mod_small by lia.
  destruct (Z.leb_spec (2 ^ 63) x); lia.
Qed.

(** [current_ms] is the number of whole milliseconds since the epoch (no
    wrap-around for any time before about the year 148,000). *)
Lemma current_ms_of_millis t : (0 <= t < 2 ^ 62)%Z -> current_ms_of t = (t / 1000000)%Z.
Proof.
  intros Ht. unfold current_ms_of.
  pose proof (Z.div_mod t (10 ^ 9) ltac:(lia)) as Hdm.
  pose proof (Z.mod_pos_bound t (10 ^ 9) ltac:(lia)) as Hr.
  set (q := (t / 10 ^ 9)%Z) in *. set (r := (t mod 10 ^ 9)%Z) in *.
  assert (Hq : (0 <= q)%Z) by (apply Z.div_pos; lia).
  assert (Hrd : (0 <= r / 1000000 < 1000)%Z).
  { split; [apply Z.div_pos; lia|]. apply Z.div_lt_upper_bound; lia. }
  rewrite (wrap_i64_small q) by lia.
  rewrite (wrap_i64_small (q * 1000)) by lia.
  rewrite wrap_i64_small by lia.
  replace t with (r + (q * 1000) * 1000000)%Z by lia.
  rewrite Z.div_add by lia. lia.
Qed.

Section UploadShape.
Context {W : Type} `{Env W}.

Lemma current_ms_run s v s' :
  current_ms s = (Done v, s') ->
  exists t w, (0 <= t)%Z /\ v = current_ms_of t /\
              st_trace s' = st_trace s ++ [(EvNow t, w)] /\
              st_aws_cursor s' = st_aws_cursor s.
Proof.
  unfold current_ms, bind, call.
  destruct (system_time_now (st_world s)) as [t w] eqn:E. simpl.
  destruct (Z.ltb_spec t 0).
  - discriminate.
  - intros Hr. injection Hr as <- <-. exists t, w. simpl. auto.
Qed.

Lemma make_log_events_run rs :
  forall s evs s', make_log_events rs s = (Done evs, s') ->
  exists ts d, st_trace s' = st_trace s ++ d /\ map fst d = map EvNow ts /\
               length ts = length rs /\ Forall (fun t => 0 <= t)%Z ts /\
               evs = input_events rs ts /\ st_aws_cursor s' = st_aws_cursor s.
Proof.
  induction rs as [|r rs IH]; intros s evs s' Hrun.
  - simpl in Hrun. injection Hrun as <- <-. exists [], []. simpl.
    rewrite app_nil_r. repeat split; constructor.
  - simpl in Hrun. unfold bind in Hrun. cbv beta in Hrun. unfold ret at 1 in Hrun.
    cbv beta iota in Hrun.
    destruct (current_ms s) as [[v|m] s1] eqn:E1; [|simpl in Hrun; discriminate].
    destruct (current_ms_run _ _ _ E1) as (t & w & Ht & -> & Et1 & Ea1).
    destruct (make_log_events rs s1) as [[evs'|m] s2] eqn:E2; [|simpl in Hrun; discriminate].
    injection Hrun as <- <-.
    destruct (IH _ _ _ E2) as (ts & d & Et2 & Ed & Hl & Hpos & -> & Ea2).
    exists (t :: ts), ((EvNow t, w) :: d). simpl.
    rewrite Et2, Et1, <- app_assoc. rewrite Ed. repeat split; auto; congruence.
Qed.

End UploadShape.

(** C8.  When [upload_logs] returns, it has made exactly one upload call,
    after reading the clock once per record, and nothing else: the request
    names the configured group and stream, carries the held token, and holds
    one event per record of the batch, in order, whose message is the JSON
    serialization of the record and whose timestamp is [current_ms] of the
    clock reading taken for it during this upload (a reading at or after the
    epoch), i.e. its whole milliseconds since the epoch. *)
Theorem upload_logs_payload {W : Type} `{Env W} (config : Config) (b : LogBatch)
  (s s' : St W) (u : unit)
  (Hok : upload_logs config b s = (Done u, s')) :
  exists ts d resp,
    st_trace s' = st_trace s ++ d /\
    map fst d =
      map EvNow ts ++
      [EvPut {| ple_log_group_name := log_group_name config;
                ple_log_stream_name := log_stream_name config;
                ple_sequence_token := st_aws_cursor s;
                ple_log_events := input_events (logs b) ts |} (Ok resp)] /\
    length ts = length (logs b) /\
    Forall (fun t => 0 <= t)%Z ts /\
    (forall t, (0 <= t < 2 ^ 62)%Z -> current_ms_of t = (t / 1000000)%Z).
Proof.
  unfold upload_logs, bind, get_aws_cursor in Hok. cbv beta iota in Hok.
  destruct (make_log_events (logs b) s) as [[evs|m] s1] eqn:E; [|discriminate].
  destruct (make_log_events_run _ _ _ _ E) as (ts & d & Et & Ed & Hl & Hpos & -> & Ea).
  unfold call in Hok.
  destruct (put_log_events _ (st_world s1)) as [[resp|e] w2] eqn:Ep; simpl in Hok;
    [|discriminate].
  injection Hok as _ <-.
  exists ts, (d ++ [(EvPut {| ple_log_group_name := log_group_name config;
                              ple_log_stream_name := log_stream_name config;
                              ple_sequence_token := st_aws_cursor s;
                              ple_log_events := input_events (logs b) ts |} (Ok resp), w2)]),
         resp.
  simpl. rewrite Et, <- app_assoc, map_app, Ed.
  repeat split; auto. apply current_ms_of_millis.
Qed.

Lemma upload_logs_payload_witness :
  let s' := snd (upload_logs (cfg 2) batch_s2 upload_start) in
  upload_logs (cfg 2) batch_s2 upload_start = (Done tt, s') /\
  exists ts d resp,
    st_trace s' = st_trace upload_start ++ d /\
    map fst d =
      map EvNow ts ++
      [EvPut {| ple_log_group_name := log_group_name (cfg 2);
                ple_log_stream_name := log_stream_name (cfg 2);
                ple_sequence_token := st_aws_cursor upload_start;
                ple_log_events := input_events (logs batch_s2) ts |} (Ok resp)] /\
    length ts = length (logs batch_s2) /\
    Forall (fun t => 0 <= t)%Z ts /\
    (forall t, (0 <= t < 2 ^ 62)%Z -> current_ms_of t = (t / 1000000)%Z).
Proof.
  intros s'. split.
  - vm_compute. reflexivity.
  - apply (@upload_logs_payload SimWorld SimEnv (cfg 2) batch_s2 upload_start s' tt).
    vm_compute. reflexivity.
Defined.

Lemma with_journal_same (w : SimWorld) :
  with_journal w {| j_entries := j_entries (sw_journal w); j_pos := j_pos (sw_journal w) |} = w.
Proof. destruct w as [[e p] ? ? ? ? ? ?]. reflexivity. Qed.

Lemma with_journal_twice (w : SimWorld) j1 j2 :
  with_journal (with_journal w j1) j2 = with_journal w j2.
Proof. reflexivity. Qed.

Lemma has_fault_with_journal w j f : has_fault (with_journal w j) f = has_fault w f.
Proof. reflexivity. Qed.

Lemma nth_error_skipn_cons {A} (l : list A) i x :
  nth_error l i = Some x -> skipn i l = x :: skipn (S i) l.
Proof.
  revert l. induction i as [|i IH]; intros [|y l] E; simpl in *; try discriminate.
  - injection E as ->. reflexivity.
  - apply IH. exact E.
Qed.

Lemma read_loop_sim (n : nat) (logs : list JournalRecord) (s : St SimWorld)
  (Hf : has_fault (st_world s) FNext = false)
  (Hwf : pos_ok (sw_journal (st_world s)) = true) :
  let E := j_entries (sw_journal (st_world s)) in
  let i := next_index (j_pos (sw_journal (st_world s))) in
  let k := Nat.min n (length E - i) in
  exists d,
    read_loop n logs s =
      (Done (logs ++ firstn k (map snd (skipn i E))),
       mkSt (with_journal (st_world s)
               {| j_entries := E;
                  j_pos := if k =? 0 then j_pos (sw_journal (st_world s)) else On (i + k - 1) |})
            (st_aws_cursor s) (st_trace s ++ d)) /\
    map fst d = map (fun r => EvNextRecord (Ok (Some r))) (firstn k (map snd (skipn i E))) ++
                (if k <? n then [EvNextRecord (Ok None)] else []).
Proof.
  revert logs s Hf Hwf. induction n as [|n IH]; intros logs [w aws tr] Hf Hwf; simpl in *.
  - exists []. rewrite !app_nil_r, with_journal_same. split; reflexivity.
  - unfold bind, call. simpl. rewrite Hf. unfold sim_next.
    destruct (nth_error (j_entries (sw_journal w)) (next_index (j_pos (sw_journal w))))
      as [[c r]|] eqn:Enth; simpl.
    + set (j1 := {| j_entries := j_entries (sw_journal w);
                    j_pos := On (next_index (j_pos (sw_journal w))) |}).
      assert (Hlt : next_index (j_pos (sw_journal w)) < length (j_entries (sw_journal w))).
      { apply nth_error_Some. rewrite Enth. discriminate. }
      assert (Hwf1 : pos_ok (sw_journal (with_journal w j1)) = true).
      { simpl. apply Nat.ltb_lt. exact Hlt. }
      destruct (IH (logs ++ [r]) (mkSt (with_journal w j1) aws
                  (tr ++ [(EvNextRecord (Ok (Some r)), with_journal w j1)])) Hf Hwf1)
        as (d & Erun & Ed).
      simpl in Erun, Ed. rewrite Erun.
      rewrite (nth_error_skipn_cons _ _ _ Enth).
      set (i := next_index (j_pos (sw_journal w))) in *.
      set (len := length (j_entries (sw_journal w))) in *.
      replace (len - i) with (S (len - S i)) by lia. simpl.
      exists ((EvNextRecord (Ok (Some r)), with_journal w j1) :: d). simpl.
      rewrite <- app_assoc. simpl. split.
      * rewrite with_journal_twice, <- app_assoc. simpl.
        set (k := Nat.min n (len - S i)).
        destruct (k =? 0) eqn:Ez.
        -- apply Nat.eqb_eq in Ez. rewrite Ez. replace (i + 1 - 1) with i by lia.
           reflexivity.
        -- replace (i + S k - 1) with (i + k - 0) by lia. reflexivity.
      * rewrite Ed. reflexivity.
    + assert (Hge : length (j_entries (sw_journal w)) <= next_index (j_pos (sw_journal w))).
      { apply nth_error_None. exact Enth. }
      replace (length (j_entries (sw_journal w)) - next_index (j_pos (sw_journal w))) with 0
        by lia.
      simpl. exists [(EvNextRecord (Ok None), with_journal w (sw_journal w))].
      rewrite app_nil_r. split; [|reflexivity].
      unfold ret. f_equal. f_equal. rewrite with_journal_same.
      destruct w as [[e p] ? ? ? ? ? ?]. reflexivity.
Qed.

(** [read_batch] on the simulated journal: the records it takes, the position
    it leaves and the batch it returns. *)
Lemma read_batch_sim (config : Config) (s : St SimWorld)
  (Hf : has_fault (st_world s) FNext = false)
  (Hc : has_fault (st_world s) FCursor = false)
  (Hwf : pos_ok (sw_journal (st_world s)) = true) :
  let E := j_entries (sw_journal (st_world s)) in
  let i := next_index (j_pos (sw_journal (st_world s))) in
  let k := Nat.min (N.to_nat (batch_size config)) (length E - i) in
  let recs := firstn k (map snd (skipn i E)) in
  length recs = k /\
  exists s',
    sw_journal (st_world s') =
      {| j_entries := E;
         j_pos := if k =? 0 then j_pos (sw_journal (st_world s)) else On (i + k - 1) |} /\
    (k = 0 -> read_batch config s = (Done None, s')) /\
    (k <> 0 -> exists c r,
        nth_error E (i + k - 1) = Some (c, r) /\
        read_batch config s = (Done (Some {| logs := recs; cursor := c |}), s')).
Proof.
  intros E i k recs.
  assert (Hlen : length recs = k).
  { unfold recs. rewrite length_firstn, length_map, length_skipn. lia. }
  split; [exact Hlen|].
  destruct (read_loop_sim (N.to_nat (batch_size config)) [] s Hf Hwf) as (d & Erun & _).
  fold E i k in Erun. simpl in Erun. fold recs in Erun.
  exists (snd (read_batch config s)).
  unfold read_batch, bind. rewrite Erun. rewrite Hlen.
  destruct (k =? 0) eqn:Ez.
  - apply Nat.eqb_eq in Ez.
    simpl. split; [reflexivity|].
    split; [reflexivity | intros; contradiction].
  - apply Nat.eqb_neq in Ez.
    assert (Hi : i <= length E).
    { unfold i, E. unfold pos_ok in Hwf.
      destruct (j_pos (sw_journal (st_world s))); simpl;
        [apply Nat.leb_le in Hwf | apply Nat.ltb_lt in Hwf]; lia. }
    assert (Hk : i + k - 1 < length E).
    { unfold k in *. lia. }
    destruct (nth_error E (i + k - 1)) as [[c r]|] eqn:Enth;
      [|apply nth_error_None in Enth; lia].
    unfold call. simpl. rewrite has_fault_with_journal, Hc. unfold sim_cursor. simpl.
    fold E. rewrite Enth. simpl.
    split; [reflexivity|].
    split; [intros; contradiction|].
    intros _. exists c, r. split; [reflexivity | reflexivity].
Qed.

(** C2 (amended).  On a journal whose read position is well formed and whose
    reads and cursor query succeed, let [N] be the batch size and [M] the
    number of records after the read position.  [read_batch] consumes and
    returns exactly the next [min(N, M)] records, in journal order, moves the
    read position forward by [min(N, M)] entries, and returns [None] exactly
    when [min(N, M) = 0], i.e. when nothing is available or the batch size is
    0; otherwise the batch's cursor is that of the last record read. *)
Theorem read_batch_takes_min (config : Config) (s : St SimWorld)
  (Hf : has_fault (st_world s) FNext = false)
  (Hc : has_fault (st_world s) FCursor = false)
  (Hwf : pos_ok (sw_journal (st_world s)) = true) :
  let E := j_entries (sw_journal (st_world s)) in
  let i := next_index (j_pos (sw_journal (st_world s))) in
  let k := Nat.min (N.to_nat (batch_size config)) (length E - i) in
  let recs := firstn k (map snd (skipn i E)) in
  length recs = k /\
  exists s',
    j_entries (sw_journal (st_world s')) = E /\
    next_index (j_pos (sw_journal (st_world s'))) = i + k /\
    (k = 0 -> read_batch config s = (Done None, s')) /\
    (k <> 0 -> exists c r,
        nth_error E (i + k - 1) = Some (c, r) /\
        read_batch config s = (Done (Some {| logs := recs; cursor := c |}), s')).
Proof.
  intros E i k recs.
  destruct (read_batch_sim config s Hf Hc Hwf) as (Hlen & s' & Ej & H0 & H1).
  fold E i k recs in Hlen, Ej, H0, H1.
  split; [exact Hlen|]. exists s'. rewrite Ej. simpl.
  split; [reflexivity|]. split; [|split; assumption].
  destruct (k =? 0) eqn:Ez.
  - apply Nat.eqb_eq in Ez. rewrite Ez, Nat.add_0_r. reflexivity.
  - apply Nat.eqb_neq in Ez. simpl. lia.
Qed.

Lemma read_batch_takes_min_witness :
  has_fault world0 FNext = false /\ has_fault world0 FCursor = false /\
  pos_ok (sw_journal world0) = true /\
  (let s := start world0 in
   let E := j_entries (sw_journal (st_world s)) in
   let i := next_index (j_pos (sw_journal (st_world s))) in
   let k := Nat.min (N.to_nat (batch_size (cfg 2))) (length E - i) in
   let recs := firstn k (map snd (skipn i E)) in
   length recs = k /\
   exists s',
     j_entries (sw_journal (st_world s')) = E /\
     next_index (j_pos (sw_journal (st_world s'))) = i + k /\
     (k = 0 -> read_batch (cfg 2) s = (Done None, s')) /\
     (k <> 0 -> exists c r,
         nth_error E (i + k - 1) = Some (c, r) /\
         read_batch (cfg 2) s = (Done (Some {| logs := recs; cursor := c |}), s'))).
Proof.
  split; [reflexivity|]. split; [reflexivity|]. split; [reflexivity|].
  exact (read_batch_takes_min (cfg 2) (start world0) eq_refl eq_refl eq_refl).
Defined.

(** C2 (as stated it fails).  With a batch size of 0, [read_batch] returns
    [None] although five records are available after the read position. *)
Lemma read_batch_zero_size_returns_none :
  length (j_entries (sw_journal world0)) - next_index (j_pos (sw_journal world0)) = 5 /\
  fst (read_batch (cfg 0) (start world0)) = Done None.
Proof. vm_compute. split; reflexivity. Qed.

Lemma firstn_min_length {A} (a : nat) (l : list A) :
  firstn (Nat.min a (length l)) l = firstn a l.
Proof. rewrite <- firstn_firstn, firstn_all. reflexivity. Qed.

Lemma firstn_snoc_nth {A} (l : list A) k x :
  nth_error l k = Some x -> firstn (S k) l = firstn k l ++ [x].
Proof.
  revert l. induction k as [|k IH]; intros [|y l] E; simpl in *; try discriminate.
  - injection E as ->. reflexivity.
  - rewrite (IH l E). reflexivity.
Qed.

Lemma find_cursor_nodup (c : string) (r : JournalRecord) E base n :
  NoDup (map fst E) -> nth_error E n = Some (c, r) -> find_cursor c E base = Some (base + n).
Proof.
  revert base n. induction E as [|[c' r'] E IH]; intros base n Hnd Hn; simpl in *.
  - destruct n; discriminate.
  - inversion Hnd as [|? ? Hnotin Hnd']. subst.
    destruct n as [|n]; simpl in Hn.
    + injection Hn as -> ->. rewrite String.eqb_refl. f_equal. lia.
    + assert (Hne : c <> c').
      { intros ->. apply Hnotin. change c' with (fst (c', r)).
        apply in_map. apply nth_error_In with n. exact Hn. }
      apply String.eqb_neq in Hne. rewrite Hne.
      rewrite (IH (S base) n Hnd' Hn). f_equal. lia.
Qed.

(** C9.  On a journal whose cursors are distinct and whose read position is
    well formed, when [read_batch] returns a batch, the reader is left on the
    entry [n] of the batch's last record, the batch's cursor is that entry's
    cursor, seeking to the cursor from any position places the reader just
    before entry [n], and reading from there delivers exactly the records of
    the entries [n], [n+1], ... in order: the last record of the batch and the
    ones after it, never a record strictly before it. *)
Theorem read_batch_cursor_resumes (config : Config) (s s' : St SimWorld) (b : LogBatch)
  (Hf : has_fault (st_world s) FNext = false)
  (Hc : has_fault (st_world s) FCursor = false)
  (Hwf : pos_ok (sw_journal (st_world s)) = true)
  (Hnd : NoDup (map fst (j_entries (sw_journal (st_world s)))))
  (Hrb : read_batch config s = (Done (Some b), s')) :
  let E := j_entries (sw_journal (st_world s)) in
  exists n r pre,
    j_pos (sw_journal (st_world s')) = On n /\
    nth_error E n = Some (cursor b, r) /\
    logs b = pre ++ [r] /\
    (forall p, sim_seek (Cursor (cursor b)) {| j_entries := E; j_pos := p |} =
               Some {| j_entries := E; j_pos := Before n |}) /\
    (forall (fuel : nat) (s2 : St SimWorld),
        sw_journal (st_world s2) = {| j_entries := E; j_pos := Before n |} ->
        has_fault (st_world s2) FNext = false ->
        fst (read_loop fuel [] s2) = Done (firstn fuel (map snd (skipn n E)))).
Proof.
  intros E.
  destruct (read_batch_sim config s Hf Hc Hwf) as (Hlen & s'' & Ej & H0 & H1).
  fold E in Hlen, Ej, H0, H1.
  set (i := next_index (j_pos (sw_journal (st_world s)))) in *.
  set (k := Nat.min (N.to_nat (batch_size config)) (length E - i)) in *.
  destruct (k =? 0) eqn:Ez.
  - apply Nat.eqb_eq in Ez. rewrite (H0 Ez) in Hrb. discriminate.
  - apply Nat.eqb_neq in Ez.
    destruct (H1 Ez) as (c & r & Enth & Erb). rewrite Erb in Hrb.
    injection Hrb as Hb Hs. subst b s''.
    exists (i + k - 1), r, (firstn (k - 1) (map snd (skipn i E))).
    split; [rewrite Ej; reflexivity|].
    split; [exact Enth|].
    split.
    { simpl. replace k with (S (k - 1)) at 1 by lia.
      apply firstn_snoc_nth.
      rewrite nth_error_map, nth_error_skipn.
      replace (i + (k - 1)) with (i + k - 1) by lia. rewrite Enth. reflexivity. }
    split.
    { intros p. simpl. rewrite (find_cursor_nodup c r E 0 (i + k - 1) Hnd Enth).
      reflexivity. }
    intros fuel s2 Ej2 Hf2.
    assert (Hlt : i + k - 1 < length E).
    { apply nth_error_Some. rewrite Enth. discriminate. }
    assert (Hwf2 : pos_ok (sw_journal (st_world s2)) = true).
    { rewrite Ej2. unfold pos_ok. simpl. apply Nat.leb_le. simpl. lia. }
    destruct (read_loop_sim fuel [] s2 Hf2 Hwf2) as (d & Erun & _).
    simpl in Erun. rewrite Erun. simpl. rewrite Ej2. simpl.
    rewrite <- length_skipn, <- (length_map snd (skipn (i + k - 1) E)).
    f_equal. apply firstn_min_length.
Qed.

Lemma read_batch_cursor_resumes_witness :
  let s := start world0 in
  let s' := snd (read_batch (cfg 2) s) in
  has_fault (st_world s) FNext = false /\ has_fault (st_world s) FCursor = false /\
  pos_ok (sw_journal (st_world s)) = true /\
  NoDup (map fst (j_entries (sw_journal (st_world s)))) /\
  read_batch (cfg 2) s = (Done (Some batch_ab), s') /\
  (let E := j_entries (sw_journal (st_world s)) in
   exists n r pre,
     j_pos (sw_journal (st_world s')) = On n /\
     nth_error E n = Some (cursor batch_ab, r) /\
     logs batch_ab = pre ++ [r] /\
     (forall p, sim_seek (Cursor (cursor batch_ab)) {| j_entries := E; j_pos := p |} =
                Some {| j_entries := E; j_pos := Before n |}) /\
     (forall (fuel : nat) (s2 : St SimWorld),
         sw_journal (st_world s2) = {| j_entries := E; j_pos := Before n |} ->
         has_fault (st_world s2) FNext = false ->
         fst (read_loop fuel [] s2) = Done (firstn fuel (map snd (skipn n E))))).
Proof.
  intros s s'.
  assert (Hnd : NoDup (map fst (j_entries (sw_journal (st_world s))))).
  { vm_compute. repeat constructor; simpl; intuition discriminate. }
  assert (Hrb : read_batch (cfg 2) s = (Done (Some batch_ab), s')).
  { vm_compute. reflexivity. }
  split; [reflexivity|]. split; [reflexivity|]. split; [reflexivity|].
  split; [exact Hnd|]. split; [exact Hrb|].
  exact (read_batch_cursor_resumes (cfg 2) s s' batch_ab eq_refl eq_refl eq_refl Hnd Hrb).
Defined.

(** ** read_config and main *)

Lemma parse_digits_bound s :
  forall acc n, parse_digits s acc = Some n -> (acc < 2 ^ 32)%N -> (n < 2 ^ 32)%N.
Proof.
  induction s as [|c s IH]; intros acc n Hp Hacc; simpl in Hp.
  - injection Hp as <-. exact Hacc.
  - destruct (digit_value c) as [d|]; [|discriminate].
    match type of Hp with
    | context [if ?b then _ else _] => destruct b eqn:Elt; [|discriminate]
    end.
    apply N.ltb_lt in Elt. exact (IH _ _ Hp Elt).
Qed.

Lemma parse_u32_bound s n : parse_u32 s = Some n -> (n < 2 ^ 32)%N.
Proof.
  intros Hp. destruct s as [|c rest]; [discriminate|].
  unfold parse_u32 in Hp. cbv iota in Hp.
  destruct (Ascii.eqb c "+"%char); [destruct rest; [discriminate|]|];
    exact (parse_digits_bound _ _ _ Hp eq_refl).
Qed.

(** The configuration [read_config] builds when it does not panic: the
    region and the two names as given, a sleep of 500 ms, the batch size
    parsed from BATCH_SIZE (a u32) or 500 when BATCH_SIZE is unset or not
    UTF-8, and the cursor file from JOURNAL_CURSOR_FILE or the default path
    when that is unset or not UTF-8.  It makes no external call. *)
Theorem read_config_settings {W : Type} (region : string) (env : list (string * string))
  (g t : string) (s : St W)
  (Hg : env_var env "LOG_GROUP_NAME"%string = Ok g)
  (Ht : env_var env "LOG_STREAM_NAME"%string = Ok t)
  (Hb : forall v, env_var env "BATCH_SIZE"%string = Ok v -> parse_u32 v <> None) :
  exists c,
    read_config region env s = (Done c, s) /\
    aws_region c = region /\ log_group_name c = g /\ log_stream_name c = t /\
    sleep_time c = 500%Z /\ (batch_size c < 2 ^ 32)%N /\
    (forall e, env_var env "BATCH_SIZE"%string = Err e -> batch_size c = 500%N) /\
    (forall v, env_var env "BATCH_SIZE"%string = Ok v -> parse_u32 v = Some (batch_size c)) /\
    (forall e, env_var env "JOURNAL_CURSOR_FILE"%string = Err e ->
               cursor_file c = "/var/lib/cloudjournal/current-cursor"%string) /\
    (forall v, env_var env "JOURNAL_CURSOR_FILE"%string = Ok v -> cursor_file c = v).
Proof.
  unfold read_config, bind.
  assert (Hn : exists n, parse_u32 (unwrap_or (env_var env "BATCH_SIZE"%string) "500"%string)
                         = Some n /\
                         (forall e, env_var env "BATCH_SIZE"%string = Err e -> n = 500%N) /\
                         (forall v, env_var env "BATCH_SIZE"%string = Ok v ->
                                    parse_u32 v = Some n)).
  { destruct (env_var env "BATCH_SIZE"%string) as [v|e]; simpl.
    - destruct (parse_u32 v) as [n|] eqn:Ep; [|exfalso; exact (Hb v eq_refl Ep)].
      exists n. split; [reflexivity|]. split; [discriminate|].
      intros v' Hv. injection Hv as <-. exact Ep.
    - exists 500%N. split; [reflexivity|]. split; [reflexivity|discriminate]. }
  destruct Hn as (n & Ep & Hdef & Hval). rewrite Ep. cbv beta iota.
  unfold expect. rewrite Hg, Ht. unfold ret.
  eexists. split; [reflexivity|]. simpl.
  repeat split; auto.
  - exact (parse_u32_bound _ _ Ep).
  - intros e He. rewrite He. reflexivity.
  - intros v Hv. rewrite Hv. reflexivity.
Qed.

Lemma read_config_settings_witness :
  let env := [("LOG_GROUP_NAME"%string, "hosts"%string); ("LOG_STREAM_NAME"%string, "app"%string);
              ("BATCH_SIZE"%string, "+0042"%string)] in
  env_var env "LOG_GROUP_NAME"%string = Ok "hosts"%string /\
  env_var env "LOG_STREAM_NAME"%string = Ok "app"%string /\
  (forall v, env_var env "BATCH_SIZE"%string = Ok v -> parse_u32 v <> None) /\
  exists c,
    read_config "eu-west-1"%string env (start world0) = (Done c, start world0) /\
    aws_region c = "eu-west-1"%string /\ log_group_name c = "hosts"%string /\
    log_stream_name c = "app"%string /\
    sleep_time c = 500%Z /\ (batch_size c < 2 ^ 32)%N /\
    (forall e, env_var env "BATCH_SIZE"%string = Err e -> batch_size c = 500%N) /\
    (forall v, env_var env "BATCH_SIZE"%string = Ok v -> parse_u32 v = Some (batch_size c)) /\
    (forall e, env_var env "JOURNAL_CURSOR_FILE"%string = Err e ->
               cursor_file c = "/var/lib/cloudjournal/current-cursor"%string) /\
    (forall v, env_var env "JOURNAL_CURSOR_FILE"%string = Ok v -> cursor_file c = v).
Proof.
  intros env.
  assert (Hb : forall v, env_var env "BATCH_SIZE"%string = Ok v -> parse_u32 v <> None).
  { intros v Hv. vm_compute in Hv. injection Hv as <-. vm_compute. discriminate. }
  split; [reflexivity|]. split; [reflexivity|]. split; [exact Hb|].
  exact (read_config_settings "eu-west-1"%string env "hosts"%string "app"%string
           (start world0) eq_refl eq_refl Hb).
Defined.

(** [read_config] panics, without any external call, when BATCH_SIZE is set
    to a UTF-8 value that is not a u32 (with the message naming
    JOURNAL_CURSOR_FILE), whatever the other variables; otherwise when
    LOG_GROUP_NAME is unset or not UTF-8; otherwise when LOG_STREAM_NAME is
    unset or not UTF-8. *)
Theorem read_config_panics {W : Type} (region : string) (env : list (string * string))
  (s : St W) :
  let fails msg := read_config region env s =
                   (Panicked msg, mkSt (st_world s) (st_aws_cursor s)
                                       (st_trace s ++ [(EvPanic msg, st_world s)])) in
  (forall v, env_var env "BATCH_SIZE"%string = Ok v -> parse_u32 v = None ->
             fails "invalid JOURNAL_CURSOR_FILE not a valid u32"%string) /\
  ((forall v, env_var env "BATCH_SIZE"%string = Ok v -> parse_u32 v <> None) ->
   forall e, env_var env "LOG_GROUP_NAME"%string = Err e ->
             fails "Missing LOG_GROUP_NAME envirenoment variable"%string) /\
  ((forall v, env_var env "BATCH_SIZE"%string = Ok v -> parse_u32 v <> None) ->
   forall g e, env_var env "LOG_GROUP_NAME"%string = Ok g ->
               env_var env "LOG_STREAM_NAME"%string = Err e ->
               fails "Missing LOG_STREAM_NAME envirenoment variable"%string).
Proof.
  intros fails. unfold fails, read_config, bind.
  split; [|split].
  - intros v Hv Hp. rewrite Hv. simpl. rewrite Hp. reflexivity.
  - intros Hb e He.
    destruct (env_var env "BATCH_SIZE"%string) as [v|e'] eqn:Eb; simpl.
    + destruct (parse_u32 v) eqn:Ep; [|exfalso; exact (Hb v eq_refl Ep)].
      unfold expect. rewrite He. reflexivity.
    + unfold expect. rewrite He. reflexivity.
  - intros Hb g e Hg He.
    destruct (env_var env "BATCH_SIZE"%string) as [v|e'] eqn:Eb; simpl.
    + destruct (parse_u32 v) eqn:Ep; [|exfalso; exact (Hb v eq_refl Ep)].
      unfold expect. rewrite Hg, He. reflexivity.
    + unfold expect. rewrite Hg, He. reflexivity.
Qed.

(** A configuration error stops [main] before anything else: when
    [read_config] panics, the run ends there, having made no call to the
    journal, the file system or CloudWatch. *)
Theorem main_config_error_no_call {W : Type} `{Env W} (region : string)
  (env : list (string * string)) (fuel : nat) (s : St W) (msg : string)
  (Hcfg : fst (read_config region env s) = Panicked msg) :
  main region env fuel s =
    (Panicked msg, mkSt (st_world s) (st_aws_cursor s) (st_trace s ++ [(EvPanic msg, st_world s)])).
Proof.
  revert Hcfg. unfold main, read_config, bind.
  destruct (parse_u32 (unwrap_or (env_var env "BATCH_SIZE"%string) "500"%string));
    simpl; [|intros Hm; injection Hm as <-; reflexivity].
  unfold expect.
  destruct (env_var env "LOG_GROUP_NAME"%string); simpl;
    [|intros Hm; injection Hm as <-; reflexivity].
  destruct (env_var env "LOG_STREAM_NAME"%string); simpl;
    [discriminate|intros Hm; injection Hm as <-; reflexivity].
Qed.

Lemma main_config_error_no_call_witness :
  let env := [("LOG_STREAM_NAME"%string, "app"%string)] in
  fst (read_config "eu-west-1"%string env (start world0)) =
    Panicked "Missing LOG_GROUP_NAME envirenoment variable"%string /\
  main "eu-west-1"%string env 3 (start world0) =
    (Panicked "Missing LOG_GROUP_NAME envirenoment variable"%string,
     mkSt (st_world (start world0)) (st_aws_cursor (start world0))
          (st_trace (start world0) ++
           [(EvPanic "Missing LOG_GROUP_NAME envirenoment variable"%string,
             st_world (start world0))])).
Proof.
  intros env.
  assert (Hc : fst (read_config "eu-west-1"%string env (start world0)) =
               Panicked "Missing LOG_GROUP_NAME envirenoment variable"%string)
    by reflexivity.
  split; [exact Hc|].
  exact (@main_config_error_no_call SimWorld SimEnv "eu-west-1"%string env 3 (start world0) _ Hc).
Defined.

(** ** current_ms *)

(** The timestamps [current_ms] computes from clock readings at or after the
    epoch (and before 2^62 ns, about the year 2116, where none of its i64
    operations wraps) are never negative and never go down when the clock
    does not. *)
Theorem current_ms_of_monotone (t1 t2 : Z)
  (H1 : (0 <= t1)%Z) (H12 : (t1 <= t2)%Z) (H2 : (t2 < 2 ^ 62)%Z) :
  (0 <= current_ms_of t1 <= current_ms_of t2)%Z.
Proof.
  rewrite (current_ms_of_millis t1) by lia. rewrite (current_ms_of_millis t2) by lia.
  split.
  - apply Z.div_pos; lia.
  - apply Z.div_le_mono; lia.
Qed.

Lemma current_ms_of_monotone_witness :
  (0 <= 1700000000000000000)%Z /\ (1700000000000000000 <= 1700000000123456789)%Z /\
  (1700000000123456789 < 2 ^ 62)%Z /\
  (0 <= current_ms_of 1700000000000000000 <= current_ms_of 1700000000123456789)%Z.
Proof.
  split; [lia|]. split; [lia|]. split; [lia|].
  apply current_ms_of_monotone; lia.
Defined.

(** ** The JSON serialization of records *)

Lemma list_ascii_of_string_app (a b : string) :
  list_ascii_of_string (a ++ b) = list_ascii_of_string a ++ list_ascii_of_string b.
Proof. induction a as [|c a IH]; simpl; [reflexivity|]. rewrite IH. reflexivity. Qed.

Lemma json_escape_byte_decode (c : ascii) (t : list ascii) :
  json_unescape (list_ascii_of_string (json_escape_byte c) ++ t) =
  cons_decoded c (json_unescape t).
Proof.
  destruct c as [[] [] [] [] [] [] [] []]; reflexivity.
Qed.

Lemma json_escape_decode (s : string) (t : list ascii) :
  json_unescape (list_ascii_of_string (json_escape s) ++ ascii_of_nat 34 :: t) = Some (s, t).
Proof.
  induction s as [|c s IH]; [reflexivity|].
  simpl. rewrite list_ascii_of_string_app, <- app_assoc, json_escape_byte_decode, IH.
  reflexivity.
Qed.

Lemma json_entry_ascii (k v : string) (t : list ascii) :
  list_ascii_of_string (json_string k ++ ":" ++ json_string v) ++ t =
  ascii_of_nat 34 :: list_ascii_of_string (json_escape k) ++ ascii_of_nat 34 ::
  ":"%char :: ascii_of_nat 34 :: list_ascii_of_string (json_escape v) ++ ascii_of_nat 34 :: t.
Proof.
  unfold json_string, char_of.
  repeat (rewrite !list_ascii_of_string_app; simpl).
  repeat (rewrite <- !app_assoc; simpl). reflexivity.
Qed.

Lemma json_decode_entries_encode (r : JournalRecord) :
  r <> [] -> forall f t, length r <= f ->
  json_decode_entries f
    (list_ascii_of_string (String.concat "," (map json_entry r)) ++ "}"%char :: t) = Some (r, t).
Proof.
  induction r as [|[k v] r IH]; intros Hne f t Hf; [contradiction|].
  destruct f as [|f]; [simpl in Hf; lia|].
  destruct r as [|kv' r'].
  - change (String.concat "," (map json_entry [(k, v)])) with (json_entry (k, v)).
    unfold json_entry. cbn [fst snd].
    rewrite json_entry_ascii. cbn [json_decode_entries].
    rewrite json_escape_decode. simpl. rewrite json_escape_decode. reflexivity.
  - change (String.concat "," (map json_entry ((k, v) :: kv' :: r')))
      with (json_entry (k, v) ++ "," ++ String.concat "," (map json_entry (kv' :: r')))%string.
    rewrite list_ascii_of_string_app, <- app_assoc.
    unfold json_entry at 1. cbn [fst snd].
    rewrite json_entry_ascii. cbn [json_decode_entries].
    rewrite json_escape_decode. simpl. rewrite json_escape_decode. simpl.
    rewrite IH; [reflexivity | discriminate | simpl in *; lia].
Qed.

Lemma json_entry_length (kv : string * string) :
  5 <= length (list_ascii_of_string (json_entry kv)).
Proof.
  unfold json_entry. rewrite <- (app_nil_r (list_ascii_of_string _)), json_entry_ascii.
  simpl. repeat (rewrite length_app; simpl). lia.
Qed.

Lemma json_entries_length (r : JournalRecord) :
  2 * length r <= length (list_ascii_of_string (String.concat "," (map json_entry r))).
Proof.
  induction r as [|kv r IH]; [simpl; lia|].
  pose proof (json_entry_length kv) as Hkv.
  destruct r as [|kv' r'].
  - change (String.concat "," (map json_entry [kv])) with (json_entry kv).
    change (2 * length [kv]) with 2. lia.
  - change (String.concat "," (map json_entry (kv :: kv' :: r')))
      with (json_entry kv ++ "," ++ String.concat "," (map json_entry (kv' :: r')))%string.
    rewrite !list_ascii_of_string_app, !length_app. simpl. simpl in IH. lia.
Qed.

Lemma json_decode_record_encode (r : JournalRecord) :
  json_decode_record (json_of_record r) = Some r.
Proof.
  unfold json_decode_record, json_of_record.
  change (map (fun kv : string * string => (json_string (fst kv) ++ ":" ++ json_string (snd kv))%string) r)
    with (map json_entry r).
  rewrite !list_ascii_of_string_app.
  change (list_ascii_of_string "{"%string) with ["{"%char].
  change (list_ascii_of_string "}"%string) with ["}"%char].
  cbn [app]. rewrite Ascii.eqb_refl.
  destruct r as [|kv r'].
  - reflexivity.
  - assert (Hl := json_entries_length (kv :: r')).
    destruct (list_eq_dec ascii_dec _ _) as [Heq|Hne].
    + apply (f_equal (@length ascii)) in Heq. rewrite length_app in Heq.
      simpl in Heq, Hl. lia.
    + rewrite (json_decode_entries_encode (kv :: r') ltac:(discriminate) _ []).
      * reflexivity.
      * rewrite length_app. simpl in *. lia.
Qed.

(** The JSON message of a record determines the record: two records with
    the same message are equal (field names, values and their order), so
    the serialization loses nothing, whatever bytes the fields hold. *)
Theorem json_of_record_injective (r1 r2 : JournalRecord)
  (Heq : json_of_record r1 = json_of_record r2) : r1 = r2.
Proof.
  apply (f_equal json_decode_record) in Heq.
  rewrite !json_decode_record_encode in Heq. injection Heq as ->. reflexivity.
Qed.

Lemma json_of_record_injective_witness :
  json_of_record [("MESSAGE"%string, "a"%string)] = json_of_record [("MESSAGE"%string, "a"%string)] /\
  [("MESSAGE"%string, "a"%string)] = [("MESSAGE"%string, "a"%string)].
Proof.
  split; [reflexivity|].
  exact (json_of_record_injective [("MESSAGE"%string, "a"%string)]
           [("MESSAGE"%string, "a"%string)] eq_refl).
Defined.

Lemma json_escape_byte_printable (c : ascii) :
  Forall printable_char (list_ascii_of_string (json_escape_byte c)).
Proof.
  apply Forall_forall. intros x Hx. unfold printable_char. apply Nat.leb_le.
  revert x Hx. apply forallb_forall.
  destruct c as [[] [] [] [] [] [] [] []]; reflexivity.
Qed.

Lemma json_escape_printable (s : string) :
  Forall printable_char (list_ascii_of_string (json_escape s)).
Proof.
  induction s as [|c s IH]; simpl; [constructor|].
  rewrite list_ascii_of_string_app. apply Forall_app. split; auto.
  apply json_escape_byte_printable.
Qed.

Lemma json_entry_printable (kv : string * string) :
  Forall printable_char (list_ascii_of_string (json_entry kv)).
Proof.
  unfold json_entry. rewrite <- (app_nil_r (list_ascii_of_string _)), json_entry_ascii.
  pose proof (json_escape_printable (fst kv)). pose proof (json_escape_printable (snd kv)).
  assert (H34 : printable_char (ascii_of_nat 34)) by (unfold printable_char; apply Nat.leb_le; reflexivity).
  constructor; [exact H34|]. apply Forall_app. split; [assumption|].
  constructor; [exact H34|]. constructor; [unfold printable_char; apply Nat.leb_le; reflexivity|].
  constructor; [exact H34|]. apply Forall_app. split; [assumption|].
  constructor; [exact H34 | constructor].
Qed.

Lemma json_entries_printable (r : JournalRecord) :
  Forall printable_char (list_ascii_of_string (String.concat "," (map json_entry r))).
Proof.
  induction r as [|kv r IH]; [constructor|].
  destruct r as [|kv' r'].
  - apply json_entry_printable.
  - change (String.concat "," (map json_entry (kv :: kv' :: r')))
      with (json_entry kv ++ "," ++ String.concat "," (map json_entry (kv' :: r')))%string.
    rewrite !list_ascii_of_string_app. apply Forall_app. split; [apply json_entry_printable|].
    apply Forall_app. split; [|exact IH].
    change (list_ascii_of_string ","%string) with [","%char].
    constructor; [unfold printable_char; apply Nat.leb_le; reflexivity | constructor].
Qed.

(** No message [upload_logs] sends contains a raw control character (a byte
    below 32, such as a newline): serde_json escapes every one of them, so
    each record is one line of JSON whatever its field values hold. *)
Theorem json_of_record_no_control_chars (r : JournalRecord) (x : ascii)
  (Hin : In x (list_ascii_of_string (json_of_record r))) : 32 <= nat_of_ascii x.
Proof.
  assert (Hall : Forall printable_char (list_ascii_of_string (json_of_record r))).
  { unfold json_of_record.
    change (map (fun kv : string * string => (json_string (fst kv) ++ ":" ++ json_string (snd kv))%string) r)
      with (map json_entry r).
    rewrite !list_ascii_of_string_app.
    change (list_ascii_of_string "{"%string) with ["{"%char].
    change (list_ascii_of_string "}"%string) with ["}"%char].
    apply Forall_app. split;
      [constructor; [unfold printable_char; apply Nat.leb_le; reflexivity | constructor]|].
    apply Forall_app. split; [apply json_entries_printable|].
    constructor; [unfold printable_char; apply Nat.leb_le; reflexivity | constructor]. }
  rewrite Forall_forall in Hall. exact (Hall x Hin).
Qed.

Lemma json_of_record_no_control_chars_witness :
  let r := [("MESSAGE"%string, String (ascii_of_nat 10) EmptyString)] in
  In "n"%char (list_ascii_of_string (json_of_record r)) /\ 32 <= nat_of_ascii "n"%char.
Proof.
  intros r.
  assert (Hin : In "n"%char (list_ascii_of_string (json_of_record r))).
  { vm_compute. repeat (first [left; reflexivity | right]). }
  split; [exact Hin|].
  exact (json_of_record_no_control_chars r "n"%char Hin).
Defined.

(** ** read_batch in any environment *)

Section ReadBatchShape.
Context {W : Type} `{Env W}.

Lemma read_loop_run (n : nat) :
  forall logs s r s', read_loop n logs s = (Done r, s') ->
  exists recs d,
    r = logs ++ recs /\ length recs <= n /\
    st_trace s' = st_trace s ++ d /\ st_aws_cursor s' = st_aws_cursor s /\
    map fst d = map (fun x => EvNextRecord (Ok (Some x))) recs ++
                (if length recs <? n then [EvNextRecord (Ok None)] else []).
Proof.
  induction n as [|n IH]; intros logs s r s' Hrun.
  - simpl in Hrun. injection Hrun as <- <-.
    exists [], []. rewrite !app_nil_r. repeat split; simpl; auto.
  - simpl in Hrun. unfold bind, call in Hrun.
    destruct (journal_next_record (st_world s)) as [[[rec|]|e] w1] eqn:E; simpl in Hrun.
    + destruct (IH _ _ _ _ Hrun) as (recs & d & -> & Hl & Et & Ea & Ed).
      exists (rec :: recs), ((EvNextRecord (Ok (Some rec)), w1) :: d).
      split; [rewrite <- app_assoc; reflexivity|].
      split; [simpl; lia|].
      split; [simpl in Et; rewrite Et, <- app_assoc; reflexivity|].
      split; [simpl in Ea; exact Ea|].
      simpl. rewrite Ed. reflexivity.
    + injection Hrun as <- <-.
      exists [], [(EvNextRecord (Ok None), w1)]. rewrite app_nil_r. simpl.
      repeat split; auto. lia.
    + discriminate.
Qed.

End ReadBatchShape.

(** What [read_batch] does, in any environment, when it returns: it never
    returns an empty batch, nor one larger than the batch size; a batch's
    cursor is the answer of one cursor query made after the reads.  Its
    calls are one successful read per returned record, then a read that
    found nothing if the batch is short of the batch size, then, for a
    batch, the cursor query.  [None] comes from a first read that found
    nothing, or from a batch size of 0 with no call at all.  It never
    touches the held token. *)
Theorem read_batch_shape {W : Type} `{Env W} (config : Config) (s s' : St W)
  (ob : option LogBatch) (Hrb : read_batch config s = (Done ob, s')) :
  exists d,
    st_trace s' = st_trace s ++ d /\ st_aws_cursor s' = st_aws_cursor s /\
    match ob with
    | None =>
        map fst d = (if N.to_nat (batch_size config) =? 0 then [] else [EvNextRecord (Ok None)])
    | Some b =>
        1 <= length (logs b) <= N.to_nat (batch_size config) /\
        map fst d = map (fun x => EvNextRecord (Ok (Some x))) (logs b) ++
                    (if length (logs b) <? N.to_nat (batch_size config)
                     then [EvNextRecord (Ok None)] else []) ++
                    [EvCursor (Ok (cursor b))]
    end.
Proof.
  revert Hrb. unfold read_batch, bind.
  destruct (read_loop (N.to_nat (batch_size config)) [] s) as [[r|m] s1] eqn:Er;
    [|discriminate].
  destruct (read_loop_run _ _ _ _ _ Er) as (recs & d & Hr & Hl & Et & Ea & Ed).
  simpl in Hr. subst r.
  destruct (length recs =? 0) eqn:Ez.
  - intros Hrb. injection Hrb as <- <-.
    apply Nat.eqb_eq in Ez. destruct recs; [|discriminate].
    exists d. repeat split; auto. rewrite Ed. simpl.
    destruct (N.to_nat (batch_size config)); reflexivity.
  - unfold call. destruct (journal_cursor (st_world s1)) as [[c|e] w2]; simpl;
      [|discriminate].
    intros Hrb. injection Hrb as <- <-.
    apply Nat.eqb_neq in Ez.
    exists (d ++ [(EvCursor (Ok c), w2)]). simpl.
    rewrite Et, <- app_assoc. repeat split; auto; [lia|].
    rewrite map_app, Ed, <- app_assoc. reflexivity.
Qed.

Lemma read_batch_shape_witness :
  read_batch (cfg 2) (start world0) =
    (Done (Some batch_ab), snd (read_batch (cfg 2) (start world0))) /\
  exists d,
    st_trace (snd (read_batch (cfg 2) (start world0))) = st_trace (start world0) ++ d /\
    st_aws_cursor (snd (read_batch (cfg 2) (start world0))) = st_aws_cursor (start world0) /\
    (1 <= length (logs batch_ab) <= N.to_nat (batch_size (cfg 2)) /\
     map fst d = map (fun x => EvNextRecord (Ok (Some x))) (logs batch_ab) ++
                 (if length (logs batch_ab) <? N.to_nat (batch_size (cfg 2))
                  then [EvNextRecord (Ok None)] else []) ++
                 [EvCursor (Ok (cursor batch_ab))]).
Proof.
  split; [vm_compute; reflexivity|].
  apply (@read_batch_shape SimWorld SimEnv (cfg 2) (start world0)
           (snd (@read_batch SimWorld SimEnv (cfg 2) (start world0))) (Some batch_ab)).
  vm_compute; reflexivity.
Defined.

(** ** Startup order *)

Ltac is_env_call c :=
  match c with
  | journal_open _ => idtac
  | journal_seek _ _ => idtac
  | journal_next_record _ => idtac
  | journal_cursor _ => idtac
  | describe_log_streams _ _ => idtac
  | create_log_stream _ _ => idtac
  | put_log_events _ _ => idtac
  | file_open _ _ => idtac
  | file_read_to_end _ _ => idtac
  | file_create _ _ => idtac
  | file_write_all _ _ _ => idtac
  | system_time_now _ => idtac
  end.

Ltac destruct_step :=
  match goal with
  | |- context [let (_, _) := ?c in _] =>
      is_env_call c;
      let r := fresh "r" in let w := fresh "w" in destruct c as [r w]
  | |- context [match ?r with Ok _ => _ | Err _ => _ end] => destruct r
  | |- context [if ?b then _ else _] => destruct b
  | |- context [match ?o with Some _ => _ | None => _ end] => destruct o
  | |- context [match ?l with [] => _ | _ :: _ => _ end] => destruct l
  end.


(** ** The main loop on the simulated world *)

(** When the journal is caught up, one turn of the loop makes one read, which
    finds nothing, then sleeps [sleep_time]: it uploads nothing, writes no
    file, and leaves the journal position, the files and the log streams as
    they were; only the clock advances, by the sleep. *)
Theorem main_iteration_caught_up (config : Config) (s : St SimWorld)
  (Hf : has_fault (st_world s) FNext = false)
  (Hend : next_index (j_pos (sw_journal (st_world s))) = length (j_entries (sw_journal (st_world s))))
  (Hn : batch_size config <> 0%N) :
  exists d s',
    main_iteration config s = (Done tt, s') /\
    st_trace s' = st_trace s ++ d /\
    map fst d = [EvNextRecord (Ok None); EvSleep (sleep_time config)] /\
    st_world s' = with_clock (st_world s) (sw_clock (st_world s) + sleep_time config * 1000000)%Z /\
    st_aws_cursor s' = st_aws_cursor s.
Proof.
  destruct s as [w aws tr]. simpl in *.
  unfold main_iteration, read_batch, bind.
  destruct (N.to_nat (batch_size config)) as [|m] eqn:Em; [lia|].
  simpl. unfold bind, call, unwrap, ret. simpl. rewrite Hf. unfold sim_next.
  rewrite Hend, (proj2 (nth_error_None _ _) (le_n _)). simpl.
  unfold sleep, call. simpl.
  eexists _, _. split; [reflexivity|].
  split; [rewrite <- app_assoc; reflexivity|].
  split; [reflexivity|].
  split; [|reflexivity].
  destruct w as [[e p] ? ? ? ? ? ?]. reflexivity.
Qed.

Lemma main_iteration_caught_up_witness :
  has_fault world_caught_up FNext = false /\
  next_index (j_pos (sw_journal world_caught_up)) = length (j_entries (sw_journal world_caught_up)) /\
  batch_size (cfg 2) <> 0%N /\
  exists d s',
    main_iteration (cfg 2) (start world_caught_up) = (Done tt, s') /\
    st_trace s' = st_trace (start world_caught_up) ++ d /\
    map fst d = [EvNextRecord (Ok None); EvSleep (sleep_time (cfg 2))] /\
    st_world s' = with_clock world_caught_up (sw_clock world_caught_up + sleep_time (cfg 2) * 1000000)%Z /\
    st_aws_cursor s' = st_aws_cursor (start world_caught_up).
Proof.
  split; [reflexivity|]. split; [reflexivity|]. split; [discriminate|].
  exact (main_iteration_caught_up (cfg 2) (start world_caught_up) eq_refl eq_refl
           ltac:(discriminate)).
Defined.

(** A cursor that [persist_cursor] wrote is what a restart reads back: when
    the cursor file can be created and written, [journal_seek_target] on
    the resulting state gives [Cursor] of the batch's cursor (or [Head] for
    an empty cursor), for any UTF-8 cursor. *)
Theorem persist_cursor_then_seek_target (config : Config) (b : LogBatch) (w : SimWorld)
  (aws : option string) (tr : list (Event * SimWorld))
  (Hlock : is_locked w (cursor_file config) = false)
  (Hcreate : has_fault w FCreate = false)
  (Hwrite : has_fault w FWrite = false)
  (Hutf : valid_utf8 (list_byte_of_string (cursor b)) = true) :
  exists s1,
    persist_cursor config b (mkSt w aws tr) = (Done tt, s1) /\
    fst (journal_seek_target (cursor_file config) s1) =
      Done (if String.eqb (cursor b) EmptyString then Head else Cursor (cursor b)).
Proof.
  unfold persist_cursor, bind, call. simpl.
  rewrite Hlock, Hcreate. simpl.
  rewrite has_fault_with_files, Hwrite, lookup_set_file. simpl.
  eexists. split; [reflexivity|].
  unfold journal_seek_target, read_to_string, bind, call. simpl.
  unfold is_locked in *. simpl. rewrite Hlock.
  rewrite !lookup_set_file. simpl.
  pose proof (lookup_set_file (cursor_file config) (list_byte_of_string (cursor b)) (set_file (cursor_file config) [] (sw_files w))) as E. rewrite E. rewrite Hutf. simpl.
  destruct (cursor b) as [|c rest] eqn:Ec; [reflexivity|].
  simpl. rewrite string_of_list_byte_of_string. reflexivity.
Qed.

Lemma persist_cursor_then_seek_target_witness :
  is_locked world0 (cursor_file (cfg 2)) = false /\
  has_fault world0 FCreate = false /\ has_fault world0 FWrite = false /\
  valid_utf8 (list_byte_of_string (cursor batch_s2)) = true /\
  exists s1,
    persist_cursor (cfg 2) batch_s2 (mkSt world0 None []) = (Done tt, s1) /\
    fst (journal_seek_target (cursor_file (cfg 2)) s1) =
      Done (if String.eqb (cursor batch_s2) EmptyString then Head else Cursor (cursor batch_s2)).
Proof.
  split; [reflexivity|]. split; [reflexivity|]. split; [reflexivity|].
  split; [vm_compute; reflexivity|].
  exact (persist_cursor_then_seek_target (cfg 2) batch_s2 world0 None []
           eq_refl eq_refl eq_refl ltac:(vm_compute; reflexivity)).
Defined.

(** ** Every record read is uploaded once, in order *)

Lemma records_read_app (a b : list Event) :
  records_read (a ++ b) = records_read a ++ records_read b.
Proof.
  induction a as [|e a IH]; [reflexivity|].
  simpl. rewrite IH.
  destruct e; try reflexivity.
  destruct r as [[x|]|e']; reflexivity.
Qed.

Lemma messages_uploaded_app (a b : list Event) :
  messages_uploaded (a ++ b) = messages_uploaded a ++ messages_uploaded b.
Proof.
  induction a as [|e a IH]; [reflexivity|].
  simpl. rewrite IH.
  destruct e; try reflexivity.
  destruct r; [rewrite app_assoc|]; reflexivity.
Qed.

Lemma input_events_messages (rs : list JournalRecord) :
  forall ts, length ts = length rs ->
  map message (input_events rs ts) = map json_of_record rs.
Proof.
  induction rs as [|r rs IH]; intros [|t ts] Hl; try discriminate; [reflexivity|].
  simpl in *. f_equal. apply IH. congruence.
Qed.

Section RunRecords.
Context {W : Type} `{Env W}.

Lemma read_loop_records (n : nat) :
  forall logs s o s', read_loop n logs s = (o, s') ->
  exists d, st_trace s' = st_trace s ++ d /\ messages_uploaded (map fst d) = [] /\
    (forall r, o = Done r -> r = logs ++ records_read (map fst d)).
Proof.
  induction n as [|n IH]; intros logs s o s' Hrun.
  - simpl in Hrun. injection Hrun as <- <-.
    exists []. rewrite app_nil_r. split; [reflexivity|]. split; [reflexivity|].
    intros r Hr. injection Hr as <-. rewrite app_nil_r. reflexivity.
  - simpl in Hrun. unfold bind, call in Hrun.
    destruct (journal_next_record (st_world s)) as [[[rec|]|e] w1] eqn:E; simpl in Hrun.
    + destruct (IH _ _ _ _ Hrun) as (d & Et & Em & Hr).
      exists ((EvNextRecord (Ok (Some rec)), w1) :: d).
      split; [simpl in Et; rewrite Et, <- app_assoc; reflexivity|].
      split; [exact Em|].
      intros r Hr'. rewrite (Hr r Hr'). simpl. rewrite <- app_assoc. reflexivity.
    + injection Hrun as <- <-.
      exists [(EvNextRecord (Ok None), w1)].
      split; [reflexivity|]. split; [reflexivity|].
      intros r Hr. injection Hr as <-. rewrite app_nil_r. reflexivity.
    + injection Hrun as <- <-.
      eexists. split; [simpl; rewrite <- app_assoc; reflexivity|].
      split; [reflexivity|]. discriminate.
Qed.

Lemma read_batch_records (config : Config) :
  forall s o s', read_batch config s = (o, s') ->
  exists d, st_trace s' = st_trace s ++ d /\ messages_uploaded (map fst d) = [] /\
    (forall ob, o = Done ob ->
       records_read (map fst d) = match ob with None => [] | Some b => logs b end).
Proof.
  intros s o s' Hrb. unfold read_batch, bind in Hrb.
  destruct (read_loop (N.to_nat (batch_size config)) [] s) as [o1 s1] eqn:E1.
  destruct (read_loop_records _ _ _ _ _ E1) as (d1 & Et1 & Em1 & Hr1).
  destruct o1 as [recs|m].
  2: { injection Hrb as <- <-. exists d1. split; [exact Et1|]. split; [exact Em1|].
       discriminate. }
  specialize (Hr1 recs eq_refl). simpl in Hr1.
  destruct (length recs =? 0) eqn:Ez.
  - injection Hrb as <- <-. exists d1. split; [exact Et1|]. split; [exact Em1|].
    intros ob Hob. injection Hob as <-. apply Nat.eqb_eq, length_zero_iff_nil in Ez.
    congruence.
  - unfold call in Hrb. destruct (journal_cursor (st_world s1)) as [c w2] eqn:E2.
    simpl in Hrb. destruct c as [c|e].
    + injection Hrb as <- <-. exists (d1 ++ [(EvCursor (Ok c), w2)]).
      split; [simpl; rewrite Et1, <- app_assoc; reflexivity|].
      rewrite map_app, messages_uploaded_app, records_read_app, Em1.
      split; [reflexivity|]. intros ob Hob. injection Hob as <-. simpl.
      rewrite app_nil_r. congruence.
    + injection Hrb as <- <-.
      eexists. split; [simpl; rewrite Et1, <- !app_assoc; reflexivity|].
      rewrite map_app, messages_uploaded_app, Em1.
      split; [reflexivity|]. discriminate.
Qed.

Lemma current_ms_records (s : St W) :
  exists d, st_trace (snd (current_ms s)) = st_trace s ++ d /\
    records_read (map fst d) = [] /\ messages_uploaded (map fst d) = [].
Proof.
  unfold current_ms, bind, call, panic, ret, log_event.
  repeat (simpl; destruct_step);
    simpl; eexists; (split; [rewrite <- ?app_assoc; reflexivity | split; reflexivity]).
Qed.

Lemma make_log_events_records (rs : list JournalRecord) :
  forall s o s', make_log_events rs s = (o, s') ->
  exists d, st_trace s' = st_trace s ++ d /\
    records_read (map fst d) = [] /\ messages_uploaded (map fst d) = [].
Proof.
  induction rs as [|r rs IH]; intros s o s' Hrun.
  - simpl in Hrun. injection Hrun as <- <-.
    exists []. rewrite app_nil_r. auto.
  - simpl in Hrun. unfold bind in Hrun. cbv beta in Hrun. unfold ret at 1 in Hrun.
    cbv beta iota in Hrun.
    destruct (current_ms_records s) as (d1 & Et1 & Er1 & Em1).
    destruct (current_ms s) as [[v|m] s1] eqn:E1; simpl in Et1.
    + destruct (make_log_events rs s1) as [o2 s2] eqn:E2.
      destruct (IH _ _ _ E2) as (d2 & Et2 & Er2 & Em2).
      exists (d1 ++ d2).
      rewrite map_app, records_read_app, messages_uploaded_app, Er1, Em1, Er2, Em2.
      destruct o2; injection Hrun as <- <-;
        (split; [rewrite Et2, Et1, <- app_assoc; reflexivity | auto]).
    + injection Hrun as <- <-. exists d1. auto.
Qed.

Lemma upload_logs_records (config : Config) (b : LogBatch) :
  forall s o s', upload_logs config b s = (o, s') ->
  exists d, st_trace s' = st_trace s ++ d /\ records_read (map fst d) = [] /\
    (messages_uploaded (map fst d) = [] \/
     messages_uploaded (map fst d) = map json_of_record (logs b)) /\
    (forall u, o = Done u -> messages_uploaded (map fst d) = map json_of_record (logs b)).
Proof.
  intros s o s' Hrun.
  unfold upload_logs, bind, get_aws_cursor in Hrun. cbv beta iota in Hrun.
  destruct (make_log_events (logs b) s) as [o1 s1] eqn:E.
  destruct (make_log_events_records _ _ _ _ E) as (d1 & Et1 & Er1 & Em1).
  destruct o1 as [evs|m].
  2: { injection Hrun as <- <-. exists d1.
       split; [exact Et1|]. split; [exact Er1|]. split; [left; exact Em1|]. discriminate. }
  destruct (make_log_events_run _ _ _ _ E) as (ts & d & Et & Ed & Hl & Hpos & -> & Ea).
  rewrite Et in Et1. apply app_inv_head in Et1. subst d1.
  unfold call in Hrun.
  destruct (put_log_events _ (st_world s1)) as [[resp|e] w2] eqn:Ep; simpl in Hrun.
  - injection Hrun as <- <-.
    eexists. split; [simpl; rewrite Et, <- app_assoc; reflexivity|].
    rewrite map_app, records_read_app, messages_uploaded_app, Er1, Em1. simpl.
    rewrite app_nil_r, (input_events_messages _ _ Hl).
    split; [reflexivity|]. split; [right; reflexivity|]. reflexivity.
  - injection Hrun as <- <-.
    eexists. split; [simpl; rewrite Et, <- !app_assoc; reflexivity|].
    rewrite map_app, records_read_app, messages_uploaded_app, Er1, Em1.
    split; [reflexivity|]. split; [left; reflexivity|]. discriminate.
Qed.

Lemma persist_cursor_records (config : Config) (b : LogBatch) (s : St W) :
  exists d, st_trace (snd (persist_cursor config b s)) = st_trace s ++ d /\
    records_read (map fst d) = [] /\ messages_uploaded (map fst d) = [].
Proof.
  unfold persist_cursor, bind, call, unwrap, panic, ret, log_event.
  repeat (simpl; destruct_step);
    simpl; eexists; (split; [rewrite <- ?app_assoc; reflexivity | split; reflexivity]).
Qed.

Lemma init_runtime_records (config : Config) (s : St W) :
  exists d, st_trace (snd (init_runtime config s)) = st_trace s ++ d /\
    records_read (map fst d) = [] /\ messages_uploaded (map fst d) = [].
Proof.
  unfold init_runtime, init_journal, journal_seek_target, read_to_string,
    create_or_find_log_stream, bind, call, unwrap, panic, ret, set_aws_cursor, log_event.
  repeat (simpl; destruct_step);
    simpl; eexists; (split; [rewrite <- ?app_assoc; reflexivity | split; reflexivity]).
Qed.

Lemma main_iteration_records (config : Config) :
  forall s o s', main_iteration config s = (o, s') ->
  exists d, st_trace s' = st_trace s ++ d /\
    (exists rest, map json_of_record (records_read (map fst d)) =
                  messages_uploaded (map fst d) ++ rest) /\
    (forall u, o = Done u ->
       messages_uploaded (map fst d) = map json_of_record (records_read (map fst d))).
Proof.
  intros s o s' Hrun. unfold main_iteration, bind in Hrun.
  destruct (read_batch config s) as [o1 s1] eqn:E1.
  destruct (read_batch_records _ _ _ _ E1) as (d1 & Et1 & Em1 & Hr1).
  destruct o1 as [ob|m].
  2: { injection Hrun as <- <-. exists d1. split; [exact Et1|]. rewrite Em1.
       split; [eexists; reflexivity|]. discriminate. }
  specialize (Hr1 ob eq_refl).
  destruct ob as [b|].
  - destruct (upload_logs config b s1) as [o2 s2] eqn:E2.
    destruct (upload_logs_records _ _ _ _ _ E2) as (d2 & Et2 & Er2 & Em2 & Hd2).
    destruct o2 as [u|m].
    + specialize (Hd2 u eq_refl).
      destruct (persist_cursor_records config b s2) as (d3 & Et3 & Er3 & Em3).
      rewrite Hrun in Et3. simpl in Et3.
      exists (d1 ++ d2 ++ d3).
      rewrite !map_app, !records_read_app, !messages_uploaded_app, Hr1, Em1, Er2, Hd2,
        Er3, Em3, !app_nil_r. simpl.
      split; [rewrite Et3, Et2, Et1, !app_assoc; reflexivity|].
      split; [exists []; rewrite app_nil_r; reflexivity|]. reflexivity.
    + injection Hrun as <- <-. exists (d1 ++ d2).
      rewrite !map_app, !records_read_app, !messages_uploaded_app, Hr1, Em1, Er2,
        app_nil_r. simpl.
      split; [rewrite Et2, Et1, app_assoc; reflexivity|].
      split; [|discriminate].
      destruct Em2 as [-> | ->]; [eexists; reflexivity|exists []; rewrite app_nil_r; reflexivity].
  - unfold sleep, call in Hrun. simpl in Hrun. injection Hrun as <- <-.
    eexists. split; [simpl; rewrite Et1, <- app_assoc; reflexivity|].
    rewrite map_app, records_read_app, messages_uploaded_app, Hr1, Em1. simpl.
    split; [exists []; reflexivity|]. reflexivity.
Qed.

Lemma main_loop_records (config : Config) (n : nat) :
  forall s o s', main_loop config n s = (o, s') ->
  exists d, st_trace s' = st_trace s ++ d /\
    (exists rest, map json_of_record (records_read (map fst d)) =
                  messages_uploaded (map fst d) ++ rest) /\
    (forall u, o = Done u ->
       messages_uploaded (map fst d) = map json_of_record (records_read (map fst d))).
Proof.
  induction n as [|n IH]; intros s o s' Hrun.
  - simpl in Hrun. injection Hrun as <- <-. exists []. rewrite app_nil_r.
    split; [reflexivity|]. split; [exists []; reflexivity|]. reflexivity.
  - simpl in Hrun. unfold bind in Hrun.
    destruct (main_iteration config s) as [o1 s1] eqn:E1.
    destruct (main_iteration_records _ _ _ _ E1) as (d1 & Et1 & Hp1 & Hd1).
    destruct o1 as [u1|m].
    + specialize (Hd1 u1 eq_refl).
      destruct (IH _ _ _ Hrun) as (d2 & Et2 & (rest & Hp2) & Hd2).
      exists (d1 ++ d2).
      rewrite !map_app, !records_read_app, !messages_uploaded_app, map_app, Hd1.
      split; [rewrite Et2, Et1, app_assoc; reflexivity|].
      split; [exists rest; rewrite Hp2, app_assoc; reflexivity|].
      intros u Hu. rewrite (Hd2 u Hu). reflexivity.
    + injection Hrun as <- <-. exists d1. split; [exact Et1|]. split; [exact Hp1|].
      discriminate.
Qed.

End RunRecords.

Lemma read_config_records {W : Type} (region : string) (env : list (string * string))
  (s : St W) :
  exists d, st_trace (snd (read_config region env s)) = st_trace s ++ d /\
    records_read (map fst d) = [] /\ messages_uploaded (map fst d) = [].
Proof.
  unfold read_config, bind, expect, panic, ret, log_event.
  repeat (simpl; destruct_step); simpl;
    first [ exists []; rewrite app_nil_r; split; [reflexivity | split; reflexivity]
          | eexists; (split; [rewrite <- ?app_assoc; reflexivity | split; reflexivity]) ].
Qed.

(** A run of [main], in any environment, uploads exactly the records it
    reads from the journal: the messages of the successful upload calls are
    the JSON serializations of the records read, in the order they were
    read, each once, when the run completes its turns without a panic; when
    it panics, they are a prefix of them (the records of the batch in hand
    when the run stopped may be missing). *)
Theorem main_uploads_records_read {W : Type} `{Env W} (region : string)
  (env : list (string * string)) (fuel : nat) (s : St W) :
  exists d,
    st_trace (snd (main region env fuel s)) = st_trace s ++ d /\
    (exists rest, map json_of_record (records_read (map fst d)) =
                  messages_uploaded (map fst d) ++ rest) /\
    (fst (main region env fuel s) = Done tt ->
     messages_uploaded (map fst d) = map json_of_record (records_read (map fst d))).
Proof.
  unfold main, main_with, bind.
  destruct (read_config_records region env s) as (d1 & Et1 & Er1 & Em1).
  destruct (read_config region env s) as [[config|m] s1] eqn:E1; simpl in Et1.
  - destruct (init_runtime_records config s1) as (d2 & Et2 & Er2 & Em2).
    destruct (init_runtime config s1) as [[u|m] s2] eqn:E2; simpl in Et2.
    + destruct (main_loop config fuel s2) as [o s3] eqn:E3.
      destruct (main_loop_records _ _ _ _ _ E3) as (d3 & Et3 & (rest & Hp3) & Hd3).
      exists (d1 ++ d2 ++ d3). simpl.
      rewrite !map_app, !records_read_app, !messages_uploaded_app, Er1, Em1, Er2, Em2.
      simpl.
      split; [rewrite Et3, Et2, Et1, !app_assoc; reflexivity|].
      split; [exists rest; exact Hp3|].
      intros Hd. exact (Hd3 tt Hd).
    + exists (d1 ++ d2). simpl.
      rewrite !map_app, !records_read_app, !messages_uploaded_app, Er1, Em1, Er2, Em2.
      split; [rewrite Et2, Et1, app_assoc; reflexivity|].
      split; [exists []; reflexivity|]. discriminate.
  - exists d1. rewrite Er1, Em1. split; [exact Et1|].
    split; [exists []; reflexivity|]. discriminate.
Qed.
